(** * ts-to-zod: the declaration-order resolver of [generate]

    A shallow embedding of [src/core/generate.ts].  The function parses a
    TypeScript source, compiles every interface / type alias into a zod
    schema statement with the list of schema names it refers to, orders
    those statements in bounded rounds, rewrites the self-referencing ones
    and renders two texts.

    The TypeScript compiler API, the per-declaration compiler, the cycle
    transformer and the integration-test generators live in other modules;
    they are the fields of the class [Collaborators] here.  The JavaScript [Map] and [Set] iterate
    in insertion order, so both are lists: an association list whose [set]
    overwrites in place, and a duplicate-free list whose [add] appends. *)

From Stdlib Require Import String Ascii List Bool Arith ZArith Lia Permutation.
From Stdlib Require QArith Qround.
Import ListNotations.
Open Scope string_scope.

(** ** Text helpers *)

Definition nl : string := String "010"%char EmptyString.
Definition dquote : string := String "034"%char EmptyString.

(** [Array.prototype.join] on strings. *)
Fixpoint join (sep : string) (l : list string) : string :=
  match l with
  | [] => EmptyString
  | [x] => x
  | x :: rest => x ++ sep ++ join sep rest
  end.

(** [Array.prototype.includes] on strings. *)
Definition includes (l : list string) (x : string) : bool :=
  existsb (String.eqb x) l.

(** [occurs x e]: the text [x] is a contiguous part of the text [e]. *)
Definition occurs (x e : string) : Prop :=
  exists pre post, e = pre ++ x ++ post.

(** ** Insertion-ordered [Map<string, V>] and [Set<string>] *)

Module OMap.

Definition t (V : Type) := list (string * V).

Definition keys {V} (m : t V) : list string := map fst m.
Definition values {V} (m : t V) : list V := map snd m.
Definition size {V} (m : t V) : nat := length m.

Definition has {V} (m : t V) (k : string) : bool :=
  existsb (fun e => String.eqb (fst e) k) m.

Fixpoint get {V} (m : t V) (k : string) : option V :=
  match m with
  | [] => None
  | (k', v) :: m' => if String.eqb k' k then Some v else get m' k
  end.

(** [Map.prototype.set]: an existing key keeps its position and takes the
    new value, a new key goes to the end. *)
Fixpoint set {V} (m : t V) (k : string) (v : V) : t V :=
  match m with
  | [] => [(k, v)]
  | (k', v') :: m' =>
      if String.eqb k' k then (k', v) :: m' else (k', v') :: set m' k v
  end.

End OMap.

Module OSet.

Definition t := list string.

(** [Set.prototype.add]. *)
Definition add (s : t) (x : string) : t :=
  if includes s x then s else (s ++ [x])%list.

End OSet.

(** ** Collaborators

    What [generate.ts] imports: the TypeScript compiler API ([ts]), [camel]
    of the [case] package and four sibling modules.  [Stmt] stands for
    [ts.Node], of which [ts.VariableStatement] is a case. *)

(** The argument of [generateIntegrationTests]. *)
Record TestCase := {
  zodType : string;
  tsType : string
}.

(** The argument of [generateZodInferredType]. *)
Record InferredTypeProps := {
  aliasName : string;
  zodConstName : string;
  inferZodImportValue : string
}.

Class Collaborators := {
  Stmt : Type;
  SourceFile : Type;
  Node : Type;
  (** [ts.createSourceFile(fileName, sourceText, ts.ScriptTarget.Latest)] *)
  createSourceFile : string -> string -> SourceFile;
  (** the nodes [ts.forEachChild(sourceFile, _)] visits, in order *)
  children : SourceFile -> list Node;
  isInterfaceDeclaration : Node -> bool;
  isTypeAliasDeclaration : Node -> bool;
  (** [node.name.text] *)
  nameText : Node -> string;
  camel : string -> string;
  (** [generateZodSchemaVariableStatement({ zodImportValue, node,
      sourceFile, varName, getDependencyName })], giving
      [{ dependencies, statement }] *)
  generateZodSchemaVariableStatement :
    string -> Node -> SourceFile -> string -> (string -> string) ->
    list string * Stmt;
  (** [transformRecursiveSchema(zodImportValue, statement, typeName)] *)
  transformRecursiveSchema : string -> Stmt -> string -> Stmt;
  generateIntegrationTests : list TestCase -> list Stmt;
  generateZodInferredType : InferredTypeProps -> Stmt;
  (** [ts.createPrinter({ newLine: LineFeed, removeComments })
        .printNode(ts.EmitHint.Unspecified, node, sourceFile)] *)
  printNode : bool -> Stmt -> SourceFile -> string
}.

(** ** The resolver *)

(** One element of [zodSchemas]. *)
Record ZodSchema `{Collaborators} := {
  typeName : string;
  varName : string;
  statement : Stmt;
  dependencies : list string
}.

(** A value of the [statements] map: [{ typeName, value }]. *)
Record Resolved `{Collaborators} := {
  resolvedTypeName : string;
  value : Stmt
}.

(** The two collections the loop closes over and mutates. *)
Record State `{Collaborators} := {
  statements : OMap.t Resolved;
  typeImports : OSet.t
}.

Section Resolver.
Context `{Collaborators}.

Definition initial : State := {| statements := []; typeImports := [] |}.

Definition isCircular (c : ZodSchema) : bool :=
  includes (dependencies c) (varName c).

(** [dependencies.filter(dep => dep !== varName)
                 .filter(dep => !statements.has(dep))],
    read on the map as it is when the callback runs. *)
Definition missingDependencies (st : State) (c : ZodSchema) : list string :=
  filter (fun dep => negb (OMap.has (statements st) dep))
    (filter (fun dep => negb (String.eqb dep (varName c))) (dependencies c)).

(** The body of the [forEach] callback. *)
Definition resolveOne (st : State) (c : ZodSchema) : State :=
  if Nat.eqb (length (missingDependencies st c)) 0 then
    if isCircular c then
      {| statements :=
           OMap.set (statements st) (varName c)
             {| resolvedTypeName := typeName c;
                value := transformRecursiveSchema "z" (statement c) (typeName c) |};
         typeImports := OSet.add (typeImports st) (typeName c) |}
    else
      {| statements :=
           OMap.set (statements st) (varName c)
             {| resolvedTypeName := typeName c; value := statement c |};
         typeImports := typeImports st |}
  else st.

(** [zodSchemas.filter(({ varName }) => !statements.has(varName))]: the
    array the [forEach] of one round walks.  It is built before the first
    callback runs. *)
Definition pending (zs : list ZodSchema) (st : State) : list ZodSchema :=
  filter (fun c => negb (OMap.has (statements st) (varName c))) zs.

(** One pass of the [while] body. *)
Definition round (zs : list ZodSchema) (st : State) : State :=
  fold_left resolveOne (pending zs st) st.

(** The [while] guard.  [maxRun] is a count of rounds, taken among the
    integers; [n] counts up from 0. *)
Definition guard (zs : list ZodSchema) (maxRun : Z) (n : nat) (st : State) : bool :=
  negb (Nat.eqb (OMap.size (statements st)) (length zs)) && (Z.of_nat n <? maxRun)%Z.

(** The [while] loop from the counter value [n] and the collections [st]. *)
Fixpoint while (fuel : nat) (zs : list ZodSchema) (maxRun : Z)
    (n : nat) (st : State) : nat * State :=
  match fuel with
  | O => (n, st)
  | S fuel' =>
      if guard zs maxRun n st
      then while fuel' zs maxRun (S n) (round zs st)
      else (n, st)
  end.

(** The loop from [n = 0] and empty collections.  At most [maxRun] rounds
    are run, so that much fuel is enough (lemmas [resolve_spec] and
    [resolve_fuel]). *)
Definition resolve (zs : list ZodSchema) (maxRun : Z) : nat * State :=
  while (Z.to_nat maxRun) zs maxRun 0 initial.

(** The final value of the counter [n]. *)
Definition rounds (zs : list ZodSchema) (maxRun : Z) : nat :=
  fst (resolve zs maxRun).

(** The collections when the loop is left. *)
Definition resolved (zs : list ZodSchema) (maxRun : Z) : State :=
  snd (resolve zs maxRun).

Definition missingStatements (zs : list ZodSchema) (st : State) : list ZodSchema :=
  filter (fun c => negb (OMap.has (statements st) (varName c))) zs.

Definition errorHeader : string :=
  "Some schemas can't be generated due to circular dependencies:" ++ nl.

Definition errorsOf (missing : list ZodSchema) : list string :=
  match missing with
  | [] => []
  | _ :: _ => [errorHeader ++ join nl (map varName missing)]
  end.

End Resolver.

(** ** [generate] *)

Record GenerateProps := {
  sourceText : string;
  maxRun : option Z;
  nameFilter : option (string -> bool);
  getSchemaName : option (string -> string);
  keepComments : option bool
}.

(** What [generate] returns. *)
Record Generated := {
  getZodSchemasFile : string -> string;
  getIntegrationTestFile : string -> string -> string;
  errors : list string;
  hasCircularDependencies : bool
}.

Section Generate.
Context `{Collaborators}.

Definition maxRunOf (p : GenerateProps) : Z :=
  match maxRun p with Some m => m | None => 10%Z end.

Definition nameFilterOf (p : GenerateProps) : string -> bool :=
  match nameFilter p with Some f => f | None => fun _ => true end.

Definition getSchemaNameOf (p : GenerateProps) : string -> string :=
  match getSchemaName p with Some f => f | None => fun id => camel id ++ "Schema" end.

Definition keepCommentsOf (p : GenerateProps) : bool :=
  match keepComments p with Some b => b | None => false end.

Definition sourceFileOf (p : GenerateProps) : SourceFile :=
  createSourceFile "index.ts" (sourceText p).

(** The array [nodes] the visitor fills. *)
Definition nodesOf (p : GenerateProps) : list Node :=
  filter
    (fun node =>
       (isInterfaceDeclaration node || isTypeAliasDeclaration node)
       && nameFilterOf p (nameText node))
    (children (sourceFileOf p)).

(** The array [zodSchemas]. *)
Definition zodSchemasOf (p : GenerateProps) : list ZodSchema :=
  map
    (fun node =>
       let typeName := nameText node in
       let varName := getSchemaNameOf p typeName in
       let zodSchema :=
         generateZodSchemaVariableStatement "z" node (sourceFileOf p) varName
           (getSchemaNameOf p) in
       {| typeName := typeName; varName := varName;
          statement := snd zodSchema; dependencies := fst zodSchema |})
    (nodesOf p).

Definition zodSchemasFileText (print : Stmt -> string) (st : State)
    (typesImportPath : string) : string :=
  let imports := typeImports st in
  "// Generated by ts-to-zod" ++ nl ++
  "import { z } from " ++ dquote ++ "zod" ++ dquote ++ ";" ++ nl ++
  (if Nat.ltb 0 (length imports)
   then "import { " ++ join ", " imports ++ " } from " ++ dquote
        ++ typesImportPath ++ dquote ++ ";" ++ nl
   else EmptyString) ++ nl ++
  join (nl ++ nl)
    (map (fun statement => print (value statement))
       (OMap.values (statements st))) ++ nl.

Definition integrationTestFileText (print : Stmt -> string)
    (getSchemaName : string -> string) (st : State)
    (typesImportPath zodSchemasImportPath : string) : string :=
  let testCases :=
    generateIntegrationTests
      (map (fun i =>
              {| zodType := getSchemaName (resolvedTypeName i) ++ "InferredType";
                 tsType := "spec." ++ resolvedTypeName i |})
         (OMap.values (statements st))) in
  "// Generated by ts-to-zod" ++ nl ++
  "import { z } from " ++ dquote ++ "zod" ++ dquote ++ ";" ++ nl ++
  nl ++
  "import * as spec from " ++ dquote ++ typesImportPath ++ dquote ++ ";" ++ nl ++
  "import * as generated from " ++ dquote ++ zodSchemasImportPath ++ dquote
    ++ ";" ++ nl ++
  nl ++
  "// eslint-disable-next-line @typescript-eslint/no-unused-vars" ++ nl ++
  "function expectType<T>(_: T) {" ++ nl ++
  "  /* noop */" ++ nl ++
  "}" ++ nl ++
  nl ++
  join (nl ++ nl)
    (map (fun statement =>
            let zodInferredSchema :=
              generateZodInferredType
                {| aliasName :=
                     getSchemaName (resolvedTypeName statement) ++ "InferredType";
                   zodConstName :=
                     "generated." ++ getSchemaName (resolvedTypeName statement);
                   inferZodImportValue := "z" |} in
            print zodInferredSchema)
       (OMap.values (statements st))) ++ nl ++
  join nl (map print testCases) ++ nl.

(** Lines 82 to 214 of [generate]: everything after the array [zodSchemas]
    is built, as a function of that array and of the closures in scope. *)
Definition generateFrom (zodSchemas : list ZodSchema) (maxRun : Z)
    (getSchemaName : string -> string) (print : Stmt -> string) : Generated :=
  let st := resolved zodSchemas maxRun in
  let missingStatements := missingStatements zodSchemas st in
  {| getZodSchemasFile := zodSchemasFileText print st;
     getIntegrationTestFile := integrationTestFileText print getSchemaName st;
     errors := errorsOf missingStatements;
     hasCircularDependencies := Nat.ltb 0 (length (typeImports st)) |}.

Definition generate (p : GenerateProps) : Generated :=
  let sourceFile := sourceFileOf p in
  let print := fun node => printNode (negb (keepCommentsOf p)) node sourceFile in
  generateFrom (zodSchemasOf p) (maxRunOf p) (getSchemaNameOf p) print.

End Generate.

(** ** A concrete set of collaborators

    Statements are their own text; the cycle transformer wraps the text in
    [z.lazy]; a source file holds one declaration named by the whole text.
    The examples below run the resolver on explicit candidate lists. *)

Module Fixture.

Definition collaborators : Collaborators := {|
  Stmt := string;
  SourceFile := string;
  Node := string;
  createSourceFile := fun _ text => text;
  children := fun sf => [sf];
  isInterfaceDeclaration := fun _ => true;
  isTypeAliasDeclaration := fun _ => false;
  nameText := fun node => node;
  camel := fun id => id;
  generateZodSchemaVariableStatement :=
    fun z node _ varName _ => ([], "const " ++ varName ++ " = " ++ z ++ ".any();");
  transformRecursiveSchema :=
    fun z statement typeName =>
      z ++ ".lazy<" ++ typeName ++ ">(" ++ statement ++ ")";
  generateIntegrationTests :=
    fun cases => map (fun c => "expectType<" ++ tsType c ++ ">({} as " ++ zodType c ++ ")") cases;
  generateZodInferredType :=
    fun props => "type " ++ aliasName props ++ " = z.infer<typeof " ++ zodConstName props ++ ">";
  printNode := fun _ node _ => node
|}.

(** The candidate for the declaration [t], named [v], referring to [deps]. *)
Definition candidate (t v : string) (deps : list string) : @ZodSchema collaborators :=
  @Build_ZodSchema collaborators t v ("const " ++ v ++ " = schema of " ++ t) deps.

(** A chain of three declarations. *)
Definition A : @ZodSchema collaborators := candidate "A" "aSchema" [].
Definition B : @ZodSchema collaborators := candidate "B" "bSchema" ["aSchema"].
Definition C : @ZodSchema collaborators := candidate "C" "cSchema" ["bSchema"].

(** [type Node = { children: Node[] }]. *)
Definition Tree : @ZodSchema collaborators :=
  candidate "Node" "nodeSchema" ["nodeSchema"].

(** [type P = { q: Q }] and [type Q = { p?: P }]. *)
Definition P : @ZodSchema collaborators := candidate "P" "pSchema" ["qSchema"].
Definition Q : @ZodSchema collaborators := candidate "Q" "qSchema" ["pSchema"].

(** A second declaration whose name [getSchemaName] also maps to
    [pSchema]. *)
Definition P' : @ZodSchema collaborators := candidate "p" "pSchema" [].

Definition A' : @ZodSchema collaborators := candidate "a" "aSchema" [].
Definition B' : @ZodSchema collaborators := candidate "B" "bSchema" [].
Definition A'' : @ZodSchema collaborators := candidate "a" "aSchema" ["bSchema"].

(** A declaration that refers to one that was not extracted. *)
Definition Dangling : @ZodSchema collaborators :=
  candidate "D" "dSchema" ["eSchema"].

Definition run (zs : list (@ZodSchema collaborators)) (maxRun : Z) : Generated :=
  @generateFrom collaborators zs maxRun (fun id => id ++ "Schema") (fun node => node).

(** The depth of the three names of the chain. *)
Definition rank (v : string) : nat :=
  if String.eqb v "aSchema" then 0 else if String.eqb v "bSchema" then 1 else 2.

End Fixture.

(** ** Vocabulary of the statements below *)

Section Vocabulary.
Context `{Collaborators}.

(** The test [missingDependencies.length === 0] of the callback. *)
Definition eligible (st : State) (c : ZodSchema) : bool :=
  Nat.eqb (length (missingDependencies st c)) 0.

(** The entry the callback writes for [c]. *)
Definition entryOf (c : ZodSchema) : Resolved :=
  if isCircular c
  then {| resolvedTypeName := typeName c;
          value := transformRecursiveSchema "z" (statement c) (typeName c) |}
  else {| resolvedTypeName := typeName c; value := statement c |}.

(** The collections after [k] passes of the [while] body. *)
Fixpoint after (k : nat) (zs : list ZodSchema) (st : State) : State :=
  match k with
  | O => st
  | S k' => after k' zs (round zs st)
  end.

(** The collections the callbacks can produce from the empty ones. *)
Inductive reachable (zs : list ZodSchema) : State -> Prop :=
| reachable_initial : reachable zs initial
| reachable_resolveOne st c :
    reachable zs st -> In c zs -> reachable zs (resolveOne st c).

(** Every candidate named [varName c] is [c]. *)
Definition uniqueName (zs : list ZodSchema) (c : ZodSchema) : Prop :=
  forall c', In c' zs -> varName c' = varName c -> c' = c.

(** [v] refers to [d], a name other than its own. *)
Definition dependsOn (zs : list ZodSchema) (v d : string) : Prop :=
  exists c, In c zs /\ varName c = v /\ In d (dependencies c) /\ d <> v.

(** A dependency chain over the candidates: each name belongs to a
    candidate and refers to the next one. *)
Inductive chain (zs : list ZodSchema) : list string -> Prop :=
| chain_one c : In c zs -> chain zs [varName c]
| chain_cons v d rest :
    dependsOn zs v d -> chain zs (d :: rest) -> chain zs (v :: d :: rest).

(** Every dependency other than a self-reference names a candidate. *)
Definition closed (zs : list ZodSchema) : Prop :=
  forall c d, In c zs -> In d (dependencies c) -> d <> varName c ->
              exists c', In c' zs /\ varName c' = d.

(** The name at position [i] of the insertion order has its dependencies,
    self-reference apart, at earlier positions. *)
Definition topological (zs : list ZodSchema) (st : State) : Prop :=
  forall i c d,
    In c zs -> nth_error (OMap.keys (statements st)) i = Some (varName c) ->
    In d (dependencies c) -> d <> varName c ->
    exists j, j < i /\ nth_error (OMap.keys (statements st)) j = Some d.

(** The map holds the entry written for [c]. *)
Definition storedAs (st : State) (c : ZodSchema) : Prop :=
  OMap.get (statements st) (varName c) = Some (entryOf c).

(** The callbacks of one pass over [l], each with the collections it
    found. *)
Fixpoint passCalls (l : list ZodSchema) (st : State) : list (State * ZodSchema) :=
  match l with
  | [] => []
  | c :: l' => (st, c) :: passCalls l' (resolveOne st c)
  end.

(** The callbacks of [k] passes of the [while] body. *)
Fixpoint callsFrom (k : nat) (zs : list ZodSchema) (st : State)
    : list (State * ZodSchema) :=
  match k with
  | O => []
  | S k' => (passCalls (pending zs st) st ++ callsFrom k' zs (round zs st))%list
  end.

(** The callbacks of a whole run of the loop. *)
Definition calls (zs : list ZodSchema) (maxRun : Z) : list (State * ZodSchema) :=
  callsFrom (rounds zs maxRun) zs initial.

(** Some callback of the run wrote [c] into the map. *)
Definition everStored (zs : list ZodSchema) (maxRun : Z) (c : ZodSchema) : Prop :=
  exists st, In (st, c) (calls zs maxRun) /\ eligible st c = true.

(** Some callback of the run wrote [c] into the map, rewritten by
    [transformRecursiveSchema]. *)
Definition everRewritten (zs : list ZodSchema) (maxRun : Z) (c : ZodSchema) : Prop :=
  exists st, In (st, c) (calls zs maxRun) /\ eligible st c = true /\
             isCircular c = true.

(** Two candidates that differ at most by the order and the repetitions of
    their dependency lists. *)
Definition sameDependencies (c c' : ZodSchema) : Prop :=
  typeName c = typeName c' /\ varName c = varName c' /\
  statement c = statement c' /\
  forall d, In d (dependencies c) <-> In d (dependencies c').

End Vocabulary.

(** Settles, on an explicit candidate list, that a rank decreases along
    the dependencies between candidates. *)
Ltac rank_cases :=
  let c := fresh "c" in let c' := fresh "c'" in
  let Hc := fresh "Hc" in let Hc' := fresh "Hc'" in
  let Hd := fresh "Hd" in let Hne := fresh "Hne" in
  intros c c' Hc Hc' Hd Hne; simpl in Hc, Hc';
  repeat (destruct Hc as [<- | Hc]); try contradiction;
  repeat (destruct Hc' as [<- | Hc']); try contradiction;
  vm_compute in Hd;
  repeat (destruct Hd as [Hd | Hd]); try contradiction; try discriminate Hd;
  vm_compute; lia.

(** ** Further vocabulary *)

Section Orders.
Context `{Collaborators}.

(** Every candidate comes after the candidates it refers to. *)
Definition inDependencyOrder (zs : list ZodSchema) : Prop :=
  forall pre c post d,
    zs = (pre ++ c :: post)%list -> In d (dependencies c) -> d <> varName c ->
    In d (map varName pre).

(** [node] is one of the declarations the visitor keeps, the name filter
    apart. *)
Definition isDeclaration (node : Node) : bool :=
  isInterfaceDeclaration node || isTypeAliasDeclaration node.

End Orders.

(** ** The path helper of the command-line tests

    [makePosixPath(str)] is [str.split(sep).join(posix.sep)], with [sep] of
    the [path] module: one character, a slash on POSIX systems and a
    backslash on Windows; [posix.sep] is the slash. *)

(** [String.prototype.split] with a separator of one character. *)
Fixpoint split (sep : ascii) (s : string) : list string :=
  match s with
  | EmptyString => [EmptyString]
  | String ch rest =>
      if Ascii.eqb ch sep then EmptyString :: split sep rest
      else match split sep rest with
           | head :: tail => String ch head :: tail
           | [] => [String ch EmptyString]
           end
  end.

Definition posixSep : string := "/".

Definition makePosixPath (sep : ascii) (str : string) : string :=
  join posixSep (split sep str).

(** [s] with every [from] replaced by [to]. *)
Fixpoint substitute (from to : ascii) (s : string) : string :=
  match s with
  | EmptyString => EmptyString
  | String ch rest =>
      String (if Ascii.eqb ch from then to else ch) (substitute from to rest)
  end.

(** The characters of a text. *)
Fixpoint chars (s : string) : list ascii :=
  match s with
  | EmptyString => []
  | String ch rest => ch :: chars rest
  end.

(** ** The loop for a [maxRun] that is not an integer

    [maxRun] is a JavaScript number.  The definitions above take it among
    the integers; here it is any finite number, as a rational, and the
    guard compares the counter with it. *)

Section NumberLoop.
Context `{Collaborators}.

(** [n < maxRun]. *)
Definition below (n : nat) (maxRun : QArith_base.Q) : bool :=
  negb (QArith_base.Qle_bool maxRun (QArith_base.inject_Z (Z.of_nat n))).

Definition guardNumber (zs : list ZodSchema) (maxRun : QArith_base.Q)
    (n : nat) (st : State) : bool :=
  negb (Nat.eqb (OMap.size (statements st)) (length zs)) && below n maxRun.

Fixpoint whileNumber (fuel : nat) (zs : list ZodSchema) (maxRun : QArith_base.Q)
    (n : nat) (st : State) : nat * State :=
  match fuel with
  | O => (n, st)
  | S fuel' =>
      if guardNumber zs maxRun n st
      then whileNumber fuel' zs maxRun (S n) (round zs st)
      else (n, st)
  end.

(** The counter passes [maxRun] after as many rounds as [maxRun] rounded
    up, so that much fuel is enough. *)
Definition resolveNumber (zs : list ZodSchema) (maxRun : QArith_base.Q)
    : nat * State :=
  whileNumber (Z.to_nat (Qround.Qceiling maxRun)) zs maxRun 0 initial.

End NumberLoop.

(** Options whose name filter accepts nothing, and further candidates. *)
Module MoreFixture.

(** A declaration that refers to itself and to [X], [X], and a second
    declaration under the name of the first. *)
Definition Nrec : @ZodSchema Fixture.collaborators :=
  Fixture.candidate "N" "nSchema" ["nSchema"; "xSchema"].
Definition X : @ZodSchema Fixture.collaborators :=
  Fixture.candidate "X" "xSchema" [].
Definition N' : @ZodSchema Fixture.collaborators :=
  Fixture.candidate "n" "nSchema" [].

(** [B] of the chain with its one dependency listed twice. *)
Definition Btwice : @ZodSchema Fixture.collaborators :=
  Fixture.candidate "B" "bSchema" ["aSchema"; "aSchema"].

(** Two and a half. *)
Definition twoAndAHalf : QArith_base.Q := QArith_base.Qmake 5 2.

Definition propsNothing : GenerateProps :=
  {| sourceText := "interface A {}"; maxRun := None;
     nameFilter := Some (fun _ => false);
     getSchemaName := None; keepComments := None |}.

End MoreFixture.

(** * Facts *)

(** ** Texts *)

Lemma append_assoc (a b c : string) : (a ++ b) ++ c = a ++ (b ++ c).
Proof. induction a as [|ch a IH]; simpl; [reflexivity | now rewrite IH]. Qed.

Lemma append_nil_r (a : string) : a ++ EmptyString = a.
Proof. induction a as [|ch a IH]; simpl; [reflexivity | now rewrite IH]. Qed.

Lemma occurs_refl (x : string) : occurs x x.
Proof. exists EmptyString, EmptyString. simpl. now rewrite append_nil_r. Qed.

Lemma occurs_prefix (x e pre : string) : occurs x e -> occurs x (pre ++ e).
Proof.
  intros (a & b & ->). exists (pre ++ a), b. now rewrite append_assoc.
Qed.

Lemma occurs_suffix (x e post : string) : occurs x e -> occurs x (e ++ post).
Proof.
  intros (a & b & ->). exists a, (b ++ post). now rewrite !append_assoc.
Qed.

Lemma join_cons (sep x : string) (l : list string) :
  join sep (x :: l) = x \/ exists rest, join sep (x :: l) = x ++ sep ++ rest /\ rest = join sep l.
Proof.
  destruct l as [|y l]; [now left | right]. now exists (join sep (y :: l)).
Qed.

Lemma occurs_join (sep x : string) (l : list string) :
  In x l -> occurs x (join sep l).
Proof.
  induction l as [|y l IH]; intros Hin; [contradiction|].
  destruct Hin as [-> | Hin].
  - destruct (join_cons sep x l) as [-> | (rest & -> & _)].
    + apply occurs_refl.
    + apply occurs_suffix, occurs_refl.
  - destruct l as [|z l]; [contradiction|].
    change (join sep (y :: z :: l)) with (y ++ sep ++ join sep (z :: l)).
    apply occurs_prefix, occurs_prefix, IH, Hin.
Qed.

Lemma includes_In (l : list string) (x : string) :
  includes l x = true <-> In x l.
Proof.
  unfold includes. rewrite existsb_exists. split.
  - intros (y & Hy & Heq). apply String.eqb_eq in Heq. now subst.
  - intros Hin. exists x. split; [assumption | apply String.eqb_refl].
Qed.

(** ** The ordered map *)

Module OMapFacts.
Import OMap.

Lemma has_In {V} (m : t V) (k : string) : has m k = true <-> In k (keys m).
Proof.
  unfold has, keys. rewrite existsb_exists, in_map_iff. split.
  - intros (e & He & Heq). apply String.eqb_eq in Heq. now exists e.
  - intros (e & Heq & He). exists e. split; [assumption|].
    now apply String.eqb_eq.
Qed.

Lemma has_false_In {V} (m : t V) (k : string) : has m k = false <-> ~ In k (keys m).
Proof.
  rewrite <- has_In. destruct (has m k); split; congruence.
Qed.

Lemma keys_set {V} (m : t V) (k : string) (v : V) :
  keys (set m k v) = if has m k then keys m else (keys m ++ [k])%list.
Proof.
  induction m as [|[k' v'] m IH]; simpl; [reflexivity|].
  destruct (String.eqb k' k) eqn:E; simpl; [reflexivity|].
  rewrite IH. now destruct (has m k).
Qed.

Lemma has_set {V} (m : t V) (k k' : string) (v : V) :
  has (set m k v) k' = has m k' || String.eqb k k'.
Proof.
  induction m as [|[k0 v0] m IH]; simpl.
  - now rewrite orb_false_r.
  - destruct (String.eqb k0 k) eqn:E; simpl.
    + apply String.eqb_eq in E. subst k0.
      destruct (String.eqb k k'); simpl; [reflexivity|].
      now rewrite orb_false_r.
    + rewrite IH. now rewrite orb_assoc.
Qed.

Lemma get_set_same {V} (m : t V) (k : string) (v : V) : get (set m k v) k = Some v.
Proof.
  induction m as [|[k0 v0] m IH]; simpl.
  - now rewrite String.eqb_refl.
  - destruct (String.eqb k0 k) eqn:E; simpl; rewrite E; [reflexivity | exact IH].
Qed.

Lemma get_set_other {V} (m : t V) (k k' : string) (v : V) :
  k <> k' -> get (set m k v) k' = get m k'.
Proof.
  intros Hne. induction m as [|[k0 v0] m IH]; simpl.
  - apply String.eqb_neq in Hne. now rewrite Hne.
  - destruct (String.eqb k0 k) eqn:E; simpl.
    + apply String.eqb_eq in E. subst k0.
      apply String.eqb_neq in Hne. now rewrite Hne.
    + now rewrite IH.
Qed.

Lemma get_has {V} (m : t V) (k : string) : has m k = true <-> get m k <> None.
Proof.
  induction m as [|[k0 v0] m IH]; simpl; [split; congruence|].
  destruct (String.eqb k0 k); simpl; [split; congruence | exact IH].
Qed.

Lemma NoDup_keys_set {V} (m : t V) (k : string) (v : V) :
  NoDup (keys m) -> NoDup (keys (set m k v)).
Proof.
  intros Hnd. rewrite keys_set. destruct (has m k) eqn:E; [assumption|].
  apply has_false_In in E.
  apply NoDup_app; [assumption | repeat constructor; intros [] | ].
  intros x Hx [<- | []]. contradiction.
Qed.

End OMapFacts.

(** ** One callback *)

Section ResolverFacts.
Context `{Collaborators}.

Lemma eligible_spec (st : State) (c : ZodSchema) :
  eligible st c = true <->
  forall d, In d (dependencies c) -> d <> varName c ->
            OMap.has (statements st) d = true.
Proof.
  unfold eligible, missingDependencies. rewrite Nat.eqb_eq, length_zero_iff_nil.
  split.
  - intros Hnil d Hd Hne.
    destruct (OMap.has (statements st) d) eqn:E; [reflexivity|].
    assert (Hin : In d []); [|contradiction].
    rewrite <- Hnil. apply filter_In. split; [|now rewrite E].
    apply filter_In. split; [assumption|].
    apply String.eqb_neq in Hne. now rewrite Hne.
  - intros Hall.
    destruct (filter _ (filter _ (dependencies c))) as [|d l] eqn:E; [reflexivity|].
    assert (Hin : In d (d :: l)) by now left.
    rewrite <- E in Hin. apply filter_In in Hin. destruct Hin as [Hin Hmiss].
    apply filter_In in Hin. destruct Hin as [Hin Hne].
    apply negb_true_iff, String.eqb_neq in Hne.
    rewrite (Hall d Hin Hne) in Hmiss. discriminate.
Qed.

Lemma eligible_false (st : State) (c : ZodSchema) :
  eligible st c = false <->
  exists d, In d (dependencies c) /\ d <> varName c /\
            OMap.has (statements st) d = false.
Proof.
  unfold eligible, missingDependencies. split.
  - intros Hne.
    destruct (filter _ (filter _ (dependencies c))) as [|d l] eqn:E;
      [discriminate|].
    assert (Hin : In d (d :: l)) by now left.
    rewrite <- E in Hin. apply filter_In in Hin. destruct Hin as [Hin Hmiss].
    apply filter_In in Hin. destruct Hin as [Hin Hneq].
    apply negb_true_iff, String.eqb_neq in Hneq.
    apply negb_true_iff in Hmiss. now exists d.
  - intros (d & Hd & Hneq & Hmiss).
    apply Nat.eqb_neq. intros Hlen. apply length_zero_iff_nil in Hlen.
    assert (Hin : In d []); [|contradiction].
    rewrite <- Hlen. apply filter_In. split; [|now rewrite Hmiss].
    apply filter_In. split; [assumption|].
    apply String.eqb_neq in Hneq. now rewrite Hneq.
Qed.

Lemma resolveOne_statements (st : State) (c : ZodSchema) :
  statements (resolveOne st c) =
  if eligible st c then OMap.set (statements st) (varName c) (entryOf c)
  else statements st.
Proof.
  unfold resolveOne, entryOf. fold (eligible st c).
  destruct (eligible st c); [|reflexivity]. now destruct (isCircular c).
Qed.

Lemma resolveOne_typeImports (st : State) (c : ZodSchema) :
  typeImports (resolveOne st c) =
  if eligible st c && isCircular c then OSet.add (typeImports st) (typeName c)
  else typeImports st.
Proof.
  unfold resolveOne. fold (eligible st c).
  destruct (eligible st c); [|reflexivity]. now destruct (isCircular c).
Qed.

Lemma resolveOne_skip (st : State) (c : ZodSchema) :
  eligible st c = false -> resolveOne st c = st.
Proof. unfold resolveOne. fold (eligible st c). now intros ->. Qed.

Lemma resolveOne_has (st : State) (c : ZodSchema) (k : string) :
  OMap.has (statements (resolveOne st c)) k =
  OMap.has (statements st) k || (eligible st c && String.eqb (varName c) k).
Proof.
  rewrite resolveOne_statements. destruct (eligible st c); simpl.
  - apply OMapFacts.has_set.
  - now rewrite orb_false_r.
Qed.

Lemma resolveOne_keys (st : State) (c : ZodSchema) :
  OMap.keys (statements (resolveOne st c)) =
  if eligible st c && negb (OMap.has (statements st) (varName c))
  then (OMap.keys (statements st) ++ [varName c])%list
  else OMap.keys (statements st).
Proof.
  rewrite resolveOne_statements. destruct (eligible st c); simpl; [|reflexivity].
  rewrite OMapFacts.keys_set. now destruct (OMap.has (statements st) (varName c)).
Qed.

Lemma resolveOne_has_mono (st : State) (c : ZodSchema) (k : string) :
  OMap.has (statements st) k = true ->
  OMap.has (statements (resolveOne st c)) k = true.
Proof. intros Hk. now rewrite resolveOne_has, Hk. Qed.

Lemma eligible_mono (st st' : State) (c : ZodSchema) :
  (forall k, OMap.has (statements st) k = true ->
             OMap.has (statements st') k = true) ->
  eligible st c = true -> eligible st' c = true.
Proof.
  intros Hmono Hel. apply eligible_spec. intros d Hd Hne.
  apply Hmono. now apply (proj1 (eligible_spec st c) Hel).
Qed.

Lemma add_In (s : OSet.t) (x y : string) :
  In y (OSet.add s x) <-> In y s \/ y = x.
Proof.
  unfold OSet.add. destruct (includes s x) eqn:E.
  - apply includes_In in E. split; [now left | intros [Hy | ->]; assumption].
  - rewrite in_app_iff. simpl. split.
    + intros [Hy | [<- | []]]; [now left | now right].
    + intros [Hy | ->]; [now left | right; now left].
Qed.

Lemma resolveOne_typeImports_mono (st : State) (c : ZodSchema) (t : string) :
  In t (typeImports st) -> In t (typeImports (resolveOne st c)).
Proof.
  intros Ht. rewrite resolveOne_typeImports.
  destruct (eligible st c && isCircular c); [|assumption].
  apply add_In. now left.
Qed.

(** ** One pass: a fold of the callback *)

Lemma fold_has_mono (l : list ZodSchema) (st : State) (k : string) :
  OMap.has (statements st) k = true ->
  OMap.has (statements (fold_left resolveOne l st)) k = true.
Proof.
  revert st. induction l as [|c l IH]; intros st Hk; simpl; [assumption|].
  apply IH, resolveOne_has_mono, Hk.
Qed.

Lemma fold_typeImports_mono (l : list ZodSchema) (st : State) (t : string) :
  In t (typeImports st) -> In t (typeImports (fold_left resolveOne l st)).
Proof.
  revert st. induction l as [|c l IH]; intros st Ht; simpl; [assumption|].
  apply IH, resolveOne_typeImports_mono, Ht.
Qed.

(** A key present after a pass was present before it or is the name of a
    candidate of the pass. *)
Lemma fold_has_inv (l : list ZodSchema) (st : State) (k : string) :
  OMap.has (statements (fold_left resolveOne l st)) k = true ->
  OMap.has (statements st) k = true \/ exists c, In c l /\ varName c = k.
Proof.
  revert st. induction l as [|c l IH]; intros st Hk; simpl in *; [now left|].
  destruct (IH _ Hk) as [Hk' | (c' & Hc' & Heq)].
  - rewrite resolveOne_has in Hk'. apply orb_true_iff in Hk'.
    destruct Hk' as [Hk' | Hk']; [now left | right].
    apply andb_true_iff in Hk'. destruct Hk' as [_ Heq].
    apply String.eqb_eq in Heq. exists c. now split; [left|].
  - right. exists c'. now split; [right|].
Qed.

(** A candidate of the pass that is eligible when its turn comes is in the
    map when the pass ends. *)
Lemma fold_resolves (pre post : list ZodSchema) (c : ZodSchema) (st : State) :
  eligible (fold_left resolveOne pre st) c = true ->
  OMap.has (statements (fold_left resolveOne (pre ++ c :: post) st)) (varName c) = true.
Proof.
  intros Hel. rewrite fold_left_app. simpl. apply fold_has_mono.
  rewrite resolveOne_has, Hel, String.eqb_refl. apply orb_true_r.
Qed.

Lemma pending_In (zs : list ZodSchema) (st : State) (c : ZodSchema) :
  In c (pending zs st) <-> In c zs /\ OMap.has (statements st) (varName c) = false.
Proof.
  unfold pending. rewrite filter_In, negb_true_iff. reflexivity.
Qed.

Lemma round_has_mono (zs : list ZodSchema) (st : State) (k : string) :
  OMap.has (statements st) k = true ->
  OMap.has (statements (round zs st)) k = true.
Proof. apply fold_has_mono. Qed.

(** A pending candidate whose other dependencies are in the map when the
    round starts is in the map when the round ends. *)
Lemma round_resolves (zs : list ZodSchema) (st : State) (c : ZodSchema) :
  In c zs -> eligible st c = true ->
  OMap.has (statements (round zs st)) (varName c) = true.
Proof.
  intros Hc Hel.
  destruct (OMap.has (statements st) (varName c)) eqn:E;
    [now apply round_has_mono|].
  assert (Hp : In c (pending zs st)) by now apply pending_In.
  apply in_split in Hp. destruct Hp as (pre & post & Hp).
  unfold round. rewrite Hp. apply fold_resolves.
  apply (eligible_mono st); [|assumption].
  intros k. apply fold_has_mono.
Qed.

End ResolverFacts.

(** ** The loop *)

Section LoopFacts.
Context `{Collaborators}.
Variable zs : list ZodSchema.

Lemma after_S (k : nat) (st : State) :
  after (S k) zs st = round zs (after k zs st).
Proof.
  revert st. induction k as [|k IH]; intros st; [reflexivity|].
  change (after (S (S k)) zs st) with (after (S k) zs (round zs st)).
  rewrite IH. reflexivity.
Qed.

Lemma after_has_mono (k : nat) (st : State) (v : string) :
  OMap.has (statements st) v = true ->
  OMap.has (statements (after k zs st)) v = true.
Proof.
  revert st. induction k as [|k IH]; intros st Hv; simpl; [assumption|].
  apply IH, round_has_mono, Hv.
Qed.

Lemma after_add (j k : nat) (st : State) :
  after (j + k) zs st = after k zs (after j zs st).
Proof.
  revert st. induction j as [|j IH]; intros st; simpl; [reflexivity|].
  apply IH.
Qed.

(** What the loop returns: it ran [k] passes, the guard held before each
    of them, and it stopped on the fuel or on the guard. *)
Lemma while_spec (maxRun : Z) (fuel n : nat) (st : State) :
  exists k,
    while fuel zs maxRun n st = (n + k, after k zs st) /\ k <= fuel /\
    (forall j, j < k -> guard zs maxRun (n + j) (after j zs st) = true) /\
    (k = fuel \/ guard zs maxRun (n + k) (after k zs st) = false).
Proof.
  revert n st. induction fuel as [|fuel IH]; intros n st.
  - exists 0. rewrite Nat.add_0_r. simpl. repeat split; [lia | lia | now left].
  - simpl. destruct (guard zs maxRun n st) eqn:G.
    + destruct (IH (S n) (round zs st)) as (k & Hw & Hle & Hbefore & Hstop).
      exists (S k). rewrite Hw. replace (S n + k) with (n + S k) in * by lia.
      simpl. repeat split; [lia | | ].
      * intros [|j] Hj; [now rewrite Nat.add_0_r|].
        replace (n + S j) with (S n + j) by lia. apply Hbefore. lia.
      * destruct Hstop as [-> | Hstop]; [now left | now right].
    + exists 0. rewrite Nat.add_0_r. simpl.
      repeat split; [lia | lia | now right].
Qed.

(** The fuel [resolve] gives the loop is enough: when it runs out, the
    guard is false. *)
Lemma resolve_spec (maxRun : Z) :
  resolved zs maxRun = after (rounds zs maxRun) zs initial /\
  (forall j, j < rounds zs maxRun -> guard zs maxRun j (after j zs initial) = true) /\
  guard zs maxRun (rounds zs maxRun) (resolved zs maxRun) = false.
Proof.
  unfold resolved, rounds, resolve.
  destruct (while_spec maxRun (Z.to_nat maxRun) 0 initial)
    as (k & Hw & Hle & Hbefore & Hstop).
  rewrite Hw. simpl. repeat split; [exact Hbefore|].
  destruct Hstop as [-> | Hstop]; [|exact Hstop].
  unfold guard. apply andb_false_iff. right. apply Z.ltb_ge. lia.
Qed.




(** *** Reachable collections *)

Lemma fold_reachable (l : list ZodSchema) (st : State) :
  incl l zs -> reachable zs st -> reachable zs (fold_left resolveOne l st).
Proof.
  revert st. induction l as [|c l IH]; intros st Hincl Hr; simpl; [assumption|].
  apply IH.
  - intros x Hx. apply Hincl. now right.
  - apply reachable_resolveOne; [assumption | apply Hincl; now left].
Qed.

Lemma round_reachable (st : State) :
  reachable zs st -> reachable zs (round zs st).
Proof.
  apply fold_reachable. intros c Hc. now apply pending_In in Hc.
Qed.

Lemma after_reachable (k : nat) (st : State) :
  reachable zs st -> reachable zs (after k zs st).
Proof.
  revert st. induction k as [|k IH]; intros st Hr; simpl; [assumption|].
  apply IH, round_reachable, Hr.
Qed.

Lemma resolved_reachable (maxRun : Z) : reachable zs (resolved zs maxRun).
Proof.
  rewrite (proj1 (resolve_spec maxRun)). apply after_reachable. constructor.
Qed.

(** The map never holds two entries under one name, and every name in it
    is a candidate's. *)
Lemma reachable_NoDup (st : State) :
  reachable zs st -> NoDup (OMap.keys (statements st)).
Proof.
  induction 1 as [|st c Hr IH Hc]; [constructor|].
  rewrite resolveOne_statements. destruct (eligible st c); [|assumption].
  now apply OMapFacts.NoDup_keys_set.
Qed.

Lemma reachable_keys (st : State) (k : string) :
  reachable zs st -> OMap.has (statements st) k = true ->
  exists c, In c zs /\ varName c = k.
Proof.
  induction 1 as [|st c Hr IH Hc]; intros Hk; [discriminate|].
  rewrite resolveOne_has in Hk. apply orb_true_iff in Hk.
  destruct Hk as [Hk | Hk]; [now apply IH|].
  apply andb_true_iff in Hk. destruct Hk as [_ Hk].
  apply String.eqb_eq in Hk. now exists c.
Qed.

End LoopFacts.

(** ** The callbacks of a run *)

Section CallFacts.
Context `{Collaborators}.
Variable zs : list ZodSchema.

Lemma passCalls_In (l : list ZodSchema) (st st0 : State) (c : ZodSchema) :
  In (st0, c) (passCalls l st) -> In c l.
Proof.
  revert st. induction l as [|x l IH]; intros st Hin; simpl in *; [assumption|].
  destruct Hin as [Heq | Hin]; [left; congruence | right; eauto].
Qed.

Lemma passCalls_split (l : list ZodSchema) (st st0 : State) (c : ZodSchema) :
  In (st0, c) (passCalls l st) <->
  exists pre post, l = (pre ++ c :: post)%list /\ st0 = fold_left resolveOne pre st.
Proof.
  revert st. induction l as [|x l IH]; intros st; simpl.
  - split; [contradiction | intros (pre & post & Heq & _)].
    now destruct pre.
  - split.
    + intros [Heq | Hin].
      * inversion Heq; subst. now exists [], l.
      * apply IH in Hin. destruct Hin as (pre & post & -> & ->).
        now exists (x :: pre), post.
    + intros ([|y pre] & post & Heq & ->); simpl in *.
      * inversion Heq; subst. now left.
      * inversion Heq; subst. right. apply IH. now exists pre, post.
Qed.

(** The import set after a pass: what it held, and the type names of the
    self-referencing candidates the pass stored. *)
Lemma fold_typeImports (l : list ZodSchema) (st : State) (t : string) :
  In t (typeImports (fold_left resolveOne l st)) <->
  In t (typeImports st) \/
  exists st0 c, In (st0, c) (passCalls l st) /\ eligible st0 c = true /\
                isCircular c = true /\ typeName c = t.
Proof.
  revert st. induction l as [|x l IH]; intros st; simpl.
  - split; [now left | intros [Ht | (st0 & c & [] & _)]; assumption].
  - rewrite IH, resolveOne_typeImports. split.
    + intros [Ht | (st0 & c & Hin & Hrest)].
      * destruct (eligible st x && isCircular x) eqn:E; [|now left].
        apply add_In in Ht. destruct Ht as [Ht | ->]; [now left | right].
        apply andb_true_iff in E. destruct E as [E1 E2].
        exists st, x. repeat split; try assumption. now left.
      * right. exists st0, c. split; [now right | assumption].
    + intros [Ht | (st0 & c & [Heq | Hin] & Hel & Hcirc & Hname)].
      * left. destruct (eligible st x && isCircular x); [|assumption].
        apply add_In. now left.
      * inversion Heq; subst. left. rewrite Hel, Hcirc. simpl.
        apply add_In. now right.
      * right. exists st0, c. now repeat split.
Qed.

Lemma after_typeImports (k : nat) (st : State) (t : string) :
  In t (typeImports (after k zs st)) <->
  In t (typeImports st) \/
  exists st0 c, In (st0, c) (callsFrom k zs st) /\ eligible st0 c = true /\
                isCircular c = true /\ typeName c = t.
Proof.
  revert st. induction k as [|k IH]; intros st; simpl.
  - split; [now left | intros [Ht | (st0 & c & [] & _)]; assumption].
  - rewrite IH. unfold round. rewrite fold_typeImports. split.
    + intros [[Ht | (st0 & c & Hin & Hrest)] | (st0 & c & Hin & Hrest)].
      * now left.
      * right. exists st0, c. split; [|assumption]. apply in_or_app. now left.
      * right. exists st0, c. split; [|assumption]. apply in_or_app. now right.
    + intros [Ht | (st0 & c & Hin & Hrest)]; [now left; left|].
      apply in_app_or in Hin. destruct Hin as [Hin | Hin].
      * left. right. now exists st0, c.
      * right. now exists st0, c.
Qed.

Lemma callsFrom_In (k : nat) (st st0 : State) (c : ZodSchema) :
  In (st0, c) (callsFrom k zs st) -> In c zs.
Proof.
  revert st. induction k as [|k IH]; intros st Hin; simpl in *; [contradiction|].
  apply in_app_or in Hin. destruct Hin as [Hin | Hin]; [|eauto].
  apply passCalls_In in Hin. now apply pending_In in Hin.
Qed.

(** The import set when the loop is left. *)
Lemma resolved_typeImports (maxRun : Z) (t : string) :
  In t (typeImports (resolved zs maxRun)) <->
  exists c, everRewritten zs maxRun c /\ typeName c = t.
Proof.
  rewrite (proj1 (resolve_spec zs maxRun)), after_typeImports. split.
  - intros [[] | (st0 & c & Hin & Hel & Hcirc & Hname)].
    exists c. split; [now exists st0 | assumption].
  - intros (c & (st0 & Hin & Hel & Hcirc) & Hname). right. now exists st0, c.
Qed.

End CallFacts.

(** * The claims *)

Section Reports.
Context `{Collaborators}.

Lemma missingStatements_In (zs : list ZodSchema) (st : State) (c : ZodSchema) :
  In c (missingStatements zs st) <->
  In c zs /\ OMap.has (statements st) (varName c) = false.
Proof.
  unfold missingStatements. rewrite filter_In, negb_true_iff. reflexivity.
Qed.

Lemma errorsOf_occurs (missing : list ZodSchema) (c : ZodSchema) :
  In c missing ->
  occurs (varName c) (errorHeader ++ join nl (map varName missing)).
Proof.
  intros Hc. apply occurs_prefix, occurs_join, in_map, Hc.
Qed.

(** C3.  The [errors] list [generate] returns is non-empty exactly when a
    candidate's [varName] is absent from the map after the loop; it then
    holds one string, the fixed header followed by the names of the missing
    candidates joined by line feeds, so that every missing name occurs in
    it; when every candidate is in the map, [errors] is the empty list. *)
Theorem errors_report_unresolved
    (zs : list ZodSchema) (maxRun : Z)
    (getSchemaName : string -> string) (print : Stmt -> string) :
  let g := generateFrom zs maxRun getSchemaName print in
  let st := resolved zs maxRun in
  (errors g <> [] <->
   exists c, In c zs /\ OMap.has (statements st) (varName c) = false) /\
  (errors g = [] \/
   errors g = [errorHeader ++ join nl (map varName (missingStatements zs st))] /\
   forall c, In c zs -> OMap.has (statements st) (varName c) = false ->
             exists e, errors g = [e] /\ occurs (varName c) e) /\
  ((forall c, In c zs -> OMap.has (statements st) (varName c) = true) ->
   errors g = []).
Proof.
  intros g st. subst g. simpl. fold st.
  destruct (missingStatements zs st) as [|m ms] eqn:E; simpl.
  - repeat split.
    + intros Hne. now contradiction Hne.
    + intros (c & Hc & Hmiss).
      assert (Hin : In c (missingStatements zs st))
        by now apply missingStatements_In.
      rewrite E in Hin. contradiction.
    + now left.
  - repeat split.
    + intros _. assert (Hin : In m (missingStatements zs st))
        by (rewrite E; now left).
      apply missingStatements_In in Hin. now exists m.
    + discriminate.
    + right. split; [reflexivity|]. intros c Hc Hmiss.
      eexists. split; [reflexivity|].
      apply (errorsOf_occurs (m :: ms)). rewrite <- E.
      now apply missingStatements_In.
    + intros Hall. assert (Hin : In m (missingStatements zs st))
        by (rewrite E; now left).
      apply missingStatements_In in Hin. destruct Hin as [Hin Hmiss].
      rewrite (Hall m Hin) in Hmiss. discriminate.
Qed.


(** C9.  With [maxRun] zero or negative and at least one candidate, the
    loop body never runs: no callback is made, the map and the import set
    stay empty, the single error entry lists every candidate, the schemas
    text is the bare header, the test text has no inferred type and hands
    the integration-test generator an empty list, and
    [hasCircularDependencies] is false. *)
Theorem maxRun_nonpositive_resolves_nothing
    (zs : list ZodSchema) (maxRun : Z)
    (getSchemaName : string -> string) (print : Stmt -> string) :
  (maxRun <= 0)%Z -> zs <> [] ->
  let g := generateFrom zs maxRun getSchemaName print in
  rounds zs maxRun = 0 /\
  calls zs maxRun = [] /\
  resolved zs maxRun = initial /\
  errors g = [errorHeader ++ join nl (map varName zs)] /\
  (forall c, In c zs ->
     occurs (varName c) (errorHeader ++ join nl (map varName zs))) /\
  (forall typesImportPath,
     getZodSchemasFile g typesImportPath =
     "// Generated by ts-to-zod" ++ nl ++
     "import { z } from " ++ dquote ++ "zod" ++ dquote ++ ";" ++ nl ++
     nl ++ nl) /\
  (forall typesImportPath zodSchemasImportPath,
     getIntegrationTestFile g typesImportPath zodSchemasImportPath =
     "// Generated by ts-to-zod" ++ nl ++
     "import { z } from " ++ dquote ++ "zod" ++ dquote ++ ";" ++ nl ++
     nl ++
     "import * as spec from " ++ dquote ++ typesImportPath ++ dquote ++ ";" ++ nl ++
     "import * as generated from " ++ dquote ++ zodSchemasImportPath ++ dquote
       ++ ";" ++ nl ++
     nl ++
     "// eslint-disable-next-line @typescript-eslint/no-unused-vars" ++ nl ++
     "function expectType<T>(_: T) {" ++ nl ++
     "  /* noop */" ++ nl ++
     "}" ++ nl ++
     nl ++ nl ++
     join nl (map print (generateIntegrationTests [])) ++ nl) /\
  hasCircularDependencies g = false.
Proof.
  intros Hmax Hne g. subst g.
  assert (Hfuel : Z.to_nat maxRun = 0) by lia.
  assert (Hres : resolve zs maxRun = (0, initial)).
  { unfold resolve. now rewrite Hfuel. }
  assert (Hrounds : rounds zs maxRun = 0) by (unfold rounds; now rewrite Hres).
  assert (Hst : resolved zs maxRun = initial) by (unfold resolved; now rewrite Hres).
  assert (Hmiss : missingStatements zs initial = zs).
  { unfold missingStatements. simpl. clear. induction zs as [|c l IH]; simpl;
      [reflexivity | now rewrite IH]. }
  split; [exact Hrounds|].
  split; [unfold calls; now rewrite Hrounds|].
  split; [exact Hst|].
  unfold generateFrom. simpl. rewrite Hst, Hmiss.
  split; [destruct zs; [congruence | reflexivity]|].
  split; [intros c Hc; now apply errorsOf_occurs|].
  repeat split.
Qed.

End Reports.

(** ** Dependency lists as sets *)

Section DependencyOrder.
Context `{Collaborators}.

Lemma bool_eq_iff (x y : bool) : (x = true <-> y = true) -> x = y.
Proof.
  destruct x, y; intros [H1 H2]; try reflexivity;
    [symmetry; now apply H1 | now apply H2].
Qed.

Lemma sameDependencies_resolveOne (st : State) (c c' : ZodSchema) :
  sameDependencies c c' -> resolveOne st c = resolveOne st c'.
Proof.
  intros (Ht & Hv & Hs & Hd).
  assert (Hel : eligible st c = eligible st c').
  { apply bool_eq_iff. rewrite !eligible_spec. rewrite Hv.
    split; intros Hall d Hin Hne; apply Hall; try assumption; now apply Hd. }
  assert (Hcirc : isCircular c = isCircular c').
  { apply bool_eq_iff. unfold isCircular. rewrite !includes_In, Hv. apply Hd. }
  unfold resolveOne. fold (eligible st c) (eligible st c').
  now rewrite Hel, Hcirc, Ht, Hv, Hs.
Qed.

Lemma sameDependencies_fold (l l' : list ZodSchema) (st : State) :
  Forall2 sameDependencies l l' ->
  fold_left resolveOne l st = fold_left resolveOne l' st.
Proof.
  intros Hall. revert st. induction Hall as [|c c' l l' Hc Hl IH]; intros st;
    simpl; [reflexivity|].
  now rewrite (sameDependencies_resolveOne st c c' Hc), IH.
Qed.

Lemma sameDependencies_filter (st : State) (zs zs' : list ZodSchema) :
  Forall2 sameDependencies zs zs' ->
  Forall2 sameDependencies
    (filter (fun c => negb (OMap.has (statements st) (varName c))) zs)
    (filter (fun c => negb (OMap.has (statements st) (varName c))) zs').
Proof.
  induction 1 as [|c c' l l' Hc Hl IH]; simpl; [constructor|].
  destruct Hc as (Ht & Hv & Hs & Hd). rewrite <- Hv.
  destruct (negb (OMap.has (statements st) (varName c))); [|exact IH].
  constructor; [exact (conj Ht (conj Hv (conj Hs Hd))) | exact IH].
Qed.

Lemma sameDependencies_while (zs zs' : list ZodSchema) (maxRun : Z)
    (fuel n : nat) (st : State) :
  Forall2 sameDependencies zs zs' ->
  while fuel zs maxRun n st = while fuel zs' maxRun n st.
Proof.
  intros Hall. revert n st. induction fuel as [|fuel IH]; intros n st; simpl;
    [reflexivity|].
  assert (Hround : round zs st = round zs' st).
  { unfold round, pending. apply sameDependencies_fold.
    now apply sameDependencies_filter. }
  unfold guard. rewrite (Forall2_length Hall), Hround, IH. reflexivity.
Qed.

(** X18.  The outcome does not depend on the order in which a candidate
    lists its dependencies, nor on their repetitions: two candidate lists
    that agree but for that give the same rounds, the same map and import
    set, the same missing names and the same returned record. *)
Lemma generateFrom_dependencies_as_sets (zs zs' : list ZodSchema) (maxRun : Z)
    (getSchemaName : string -> string) (print : Stmt -> string) :
  Forall2 sameDependencies zs zs' ->
  resolve zs maxRun = resolve zs' maxRun /\
  map varName (missingStatements zs (resolved zs maxRun))
  = map varName (missingStatements zs' (resolved zs' maxRun)) /\
  generateFrom zs maxRun getSchemaName print
  = generateFrom zs' maxRun getSchemaName print.
Proof.
  intros Hall.
  assert (Hres : resolve zs maxRun = resolve zs' maxRun)
    by now apply sameDependencies_while.
  assert (Hst : resolved zs maxRun = resolved zs' maxRun)
    by (unfold resolved; now rewrite Hres).
  assert (Hnames : forall l l', Forall2 sameDependencies l l' ->
            map varName l = map varName l').
  { induction 1 as [|c c' l l' (_ & Hv & _) _ IH]; simpl;
      [reflexivity | now rewrite Hv, IH]. }
  assert (Hmiss : map varName (missingStatements zs (resolved zs maxRun))
                  = map varName (missingStatements zs' (resolved zs' maxRun))).
  { rewrite <- Hst. apply Hnames. now apply sameDependencies_filter. }
  split; [exact Hres|]. split; [exact Hmiss|].
  unfold generateFrom. rewrite <- Hst. f_equal.
  unfold errorsOf. rewrite <- Hst in Hmiss.
  destruct (missingStatements zs (resolved zs maxRun)) as [|m ms],
           (missingStatements zs' (resolved zs maxRun)) as [|m' ms'];
    try discriminate; [reflexivity|].
  now rewrite Hmiss.
Qed.

End DependencyOrder.

(** ** Self-references and mutual references *)

Section Cycles.
Context `{Collaborators}.
Variable zs : list ZodSchema.

Lemma resolveOne_get (st : State) (c : ZodSchema) (k : string) :
  OMap.get (statements (resolveOne st c)) k =
  if eligible st c && String.eqb (varName c) k then Some (entryOf c)
  else OMap.get (statements st) k.
Proof.
  rewrite resolveOne_statements. destruct (eligible st c); simpl; [|reflexivity].
  destruct (String.eqb (varName c) k) eqn:E.
  - apply String.eqb_eq in E. subst k. apply OMapFacts.get_set_same.
  - apply String.eqb_neq in E. now apply OMapFacts.get_set_other.
Qed.

(** Under a name no other candidate bears, the entry of the candidate
    stays once written. *)
Lemma fold_storedAs (l : list ZodSchema) (st : State) (c : ZodSchema) :
  incl l zs -> uniqueName zs c -> storedAs st c ->
  storedAs (fold_left resolveOne l st) c.
Proof.
  revert st. induction l as [|x l IH]; intros st Hincl Hu Hs; simpl; [assumption|].
  apply IH; [intros y Hy; apply Hincl; now right | assumption |].
  unfold storedAs. rewrite resolveOne_get.
  destruct (eligible st x && String.eqb (varName x) (varName c)) eqn:E;
    [|exact Hs].
  apply andb_true_iff in E. destruct E as [_ E]. apply String.eqb_eq in E.
  rewrite (Hu x); [reflexivity | apply Hincl; now left | assumption].
Qed.

Lemma after_storedAs (k : nat) (st : State) (c : ZodSchema) :
  uniqueName zs c -> storedAs st c -> storedAs (after k zs st) c.
Proof.
  revert st. induction k as [|k IH]; intros st Hu Hs; simpl; [assumption|].
  apply IH; [assumption|]. apply fold_storedAs; try assumption.
  intros x Hx. now apply pending_In in Hx.
Qed.

Lemma after_typeImports_mono (k : nat) (st : State) (t : string) :
  In t (typeImports st) -> In t (typeImports (after k zs st)).
Proof. intros Ht. apply after_typeImports. now left. Qed.

Lemma callsFrom_pass (j k : nat) (st : State) (x : State * ZodSchema) :
  j < k ->
  In x (passCalls (pending zs (after j zs st)) (after j zs st)) ->
  In x (callsFrom k zs st).
Proof.
  revert k st. induction j as [|j IH]; intros [|k] st Hlt Hin; try lia.
  - simpl. apply in_or_app. now left.
  - simpl. apply in_or_app. right. apply IH; [lia | exact Hin].
Qed.

Lemma callsFrom_reachable (k : nat) (st st0 : State) (c : ZodSchema) :
  reachable zs st -> In (st0, c) (callsFrom k zs st) -> reachable zs st0.
Proof.
  revert st. induction k as [|k IH]; intros st Hr Hin; simpl in Hin;
    [contradiction|].
  apply in_app_or in Hin. destruct Hin as [Hin | Hin].
  - apply passCalls_split in Hin. destruct Hin as (pre & post & Hp & ->).
    apply fold_reachable; [|assumption].
    intros x Hx. assert (Hx' : In x (pending zs st)).
    { rewrite Hp. apply in_or_app. now left. }
    now apply pending_In in Hx'.
  - apply (IH (round zs st)); [now apply round_reachable | assumption].
Qed.

(** C5, amended.  Take a round the loop runs (round [j + 1], with [j]
    below the number of rounds run) and a candidate that round walks, so
    one whose name is not in the map when the round starts, that lists its
    own [varName] and has every other dependency in the map when its turn
    comes, be it from earlier rounds or from the earlier callbacks of the
    same pass.  Its callback stores it with its statement passed through
    [transformRecursiveSchema] and adds its [typeName] to the import set;
    when the round ends, and when the loop ends, its name is in the map and
    its [typeName] in the import set, and [hasCircularDependencies] is
    returned true.  When no other candidate bears its name, the rewritten
    entry is the one the map holds under it, at the end of the round and at
    the end of the loop.  A candidate whose name is in the map when a round
    starts is not walked by that round. *)
Theorem self_reference_resolved_at_its_turn
    (maxRun : Z) (getSchemaName : string -> string) (print : Stmt -> string)
    (j : nat) (c : ZodSchema) (pre post : list ZodSchema) :
  j < rounds zs maxRun ->
  pending zs (after j zs initial) = (pre ++ c :: post)%list ->
  In (varName c) (dependencies c) ->
  (forall d, In d (dependencies c) -> d <> varName c ->
     OMap.has (statements (fold_left resolveOne pre (after j zs initial))) d
     = true) ->
  let rewritten :=
    {| resolvedTypeName := typeName c;
       value := transformRecursiveSchema "z" (statement c) (typeName c) |} in
  let before := fold_left resolveOne pre (after j zs initial) in
  let g := generateFrom zs maxRun getSchemaName print in
  statements (resolveOne before c)
    = OMap.set (statements before) (varName c) rewritten /\
  typeImports (resolveOne before c)
    = OSet.add (typeImports before) (typeName c) /\
  after (S j) zs initial = fold_left resolveOne post (resolveOne before c) /\
  everRewritten zs maxRun c /\
  OMap.has (statements (after (S j) zs initial)) (varName c) = true /\
  In (typeName c) (typeImports (after (S j) zs initial)) /\
  OMap.has (statements (resolved zs maxRun)) (varName c) = true /\
  In (typeName c) (typeImports (resolved zs maxRun)) /\
  hasCircularDependencies g = true /\
  (uniqueName zs c ->
   OMap.get (statements (after (S j) zs initial)) (varName c) = Some rewritten /\
   OMap.get (statements (resolved zs maxRun)) (varName c) = Some rewritten) /\
  (forall s, OMap.has (statements s) (varName c) = true -> ~ In c (pending zs s)).
Proof.
  intros Hj Hp Hself Hdeps rewritten before g. subst g.
  set (st := after j zs initial) in *.
  assert (Hcirc : isCircular c = true) by now apply includes_In.
  assert (Hentry : entryOf c = rewritten)
    by (unfold entryOf; now rewrite Hcirc).
  assert (Hel : eligible before c = true) by now apply eligible_spec.
  assert (Hround : after (S j) zs initial = fold_left resolveOne post (resolveOne before c)).
  { rewrite after_S. fold st. unfold round. rewrite Hp, fold_left_app.
    reflexivity. }
  assert (Hcall : In (before, c) (passCalls (pending zs st) st)).
  { apply passCalls_split. now exists pre, post. }
  assert (Hrw : everRewritten zs maxRun c).
  { exists before. repeat split; try assumption.
    now apply (callsFrom_pass j). }
  assert (Hlater : resolved zs maxRun
                   = after (rounds zs maxRun - S j) zs (after (S j) zs initial)).
  { rewrite <- after_add, (proj1 (resolve_spec zs maxRun)). f_equal. lia. }
  assert (Hhas : OMap.has (statements (after (S j) zs initial)) (varName c) = true).
  { rewrite Hround. apply fold_has_mono.
    rewrite resolveOne_has, Hel, String.eqb_refl. apply orb_true_r. }
  assert (Himp : In (typeName c) (typeImports (after (S j) zs initial))).
  { rewrite Hround. apply fold_typeImports_mono.
    rewrite resolveOne_typeImports, Hel, Hcirc. simpl. apply add_In. now right. }
  assert (Himp' : In (typeName c) (typeImports (resolved zs maxRun))).
  { rewrite Hlater. now apply after_typeImports_mono. }
  assert (Hpost : incl post zs).
  { intros x Hx. assert (Hx' : In x (pending zs st)).
    { rewrite Hp. apply in_or_app. right. now right. }
    now apply pending_In in Hx'. }
  assert (Hnow : storedAs (resolveOne before c) c).
  { unfold storedAs. now rewrite resolveOne_get, Hel, String.eqb_refl. }
  split; [now rewrite resolveOne_statements, Hel, Hentry|].
  split; [now rewrite resolveOne_typeImports, Hel, Hcirc|].
  split; [exact Hround|].
  split; [exact Hrw|].
  split; [exact Hhas|].
  split; [exact Himp|].
  split; [rewrite Hlater; now apply after_has_mono|].
  split; [exact Himp'|].
  split; [simpl; destruct (typeImports (resolved zs maxRun));
          [contradiction | reflexivity]|].
  split.
  - intros Hu. rewrite <- Hentry. split.
    + rewrite Hround. now apply fold_storedAs.
    + rewrite Hlater. apply after_storedAs; [assumption|].
      rewrite Hround. now apply fold_storedAs.
  - intros s Hs Hin. apply pending_In in Hin. destruct Hin as [_ Hin]. congruence.
Qed.

(** Two candidates that wait for each other are never written. *)
Lemma mutual_never_in_map (a b : ZodSchema) (st : State) :
  In (varName b) (dependencies a) -> In (varName a) (dependencies b) ->
  ~ In (varName a) (dependencies a) -> ~ In (varName b) (dependencies b) ->
  uniqueName zs a -> uniqueName zs b ->
  reachable zs st ->
  OMap.has (statements st) (varName a) = false /\
  OMap.has (statements st) (varName b) = false.
Proof.
  intros Hab Hba Haa Hbb Hua Hub.
  assert (Hne : varName b <> varName a) by (intros E; rewrite E in Hab; contradiction).
  induction 1 as [|st c Hr [IHa IHb] Hc]; [now split|].
  rewrite !resolveOne_has, IHa, IHb. simpl.
  destruct (eligible st c) eqn:Hel; simpl; [|now split].
  split.
  - destruct (String.eqb (varName c) (varName a)) eqn:E; [|reflexivity].
    apply String.eqb_eq in E. rewrite (Hua c Hc E) in Hel.
    rewrite (proj1 (eligible_spec st a) Hel (varName b) Hab Hne) in IHb.
    discriminate.
  - destruct (String.eqb (varName c) (varName b)) eqn:E; [|reflexivity].
    apply String.eqb_eq in E. rewrite (Hub c Hc E) in Hel.
    assert (Hne' : varName a <> varName b) by congruence.
    rewrite (proj1 (eligible_spec st b) Hel (varName a) Hba Hne') in IHa.
    discriminate.
Qed.

End Cycles.

Section MutualCycle.
Context `{Collaborators}.

(** C6, amended.  Two candidates that list each other's [varName], neither
    listing its own, and whose names no other candidate bears, are never
    written into the map, whatever [maxRun] is: no callback of the run
    stores either of them, both are among the missing statements, and both
    names occur in the single error entry. *)
Theorem mutual_cycle_never_resolves
    (zs : list ZodSchema) (maxRun : Z)
    (getSchemaName : string -> string) (print : Stmt -> string)
    (a b : ZodSchema) :
  In a zs -> In b zs ->
  In (varName b) (dependencies a) -> In (varName a) (dependencies b) ->
  ~ In (varName a) (dependencies a) -> ~ In (varName b) (dependencies b) ->
  uniqueName zs a -> uniqueName zs b ->
  let g := generateFrom zs maxRun getSchemaName print in
  let st := resolved zs maxRun in
  OMap.has (statements st) (varName a) = false /\
  OMap.has (statements st) (varName b) = false /\
  ~ everStored zs maxRun a /\ ~ everStored zs maxRun b /\
  In a (missingStatements zs st) /\ In b (missingStatements zs st) /\
  exists e, errors g = [e] /\ occurs (varName a) e /\ occurs (varName b) e.
Proof.
  intros Ha Hb Hab Hba Haa Hbb Hua Hub g st. subst g.
  assert (Hne : varName b <> varName a)
    by (intros E; rewrite E in Hab; contradiction).
  assert (Hinv : forall s, reachable zs s ->
            OMap.has (statements s) (varName a) = false /\
            OMap.has (statements s) (varName b) = false).
  { intros s. now apply mutual_never_in_map. }
  destruct (Hinv st (resolved_reachable zs maxRun)) as [Hsa Hsb].
  assert (Hma : In a (missingStatements zs st)) by now apply missingStatements_In.
  assert (Hmb : In b (missingStatements zs st)) by now apply missingStatements_In.
  repeat split; try assumption.
  - intros (s & Hin & Hel).
    assert (Hr : reachable zs s).
    { apply (callsFrom_reachable zs (rounds zs maxRun) initial s a);
        [constructor | exact Hin]. }
    destruct (Hinv s Hr) as [_ Hsb'].
    rewrite (proj1 (eligible_spec s a) Hel (varName b) Hab Hne) in Hsb'.
    discriminate.
  - intros (s & Hin & Hel).
    assert (Hr : reachable zs s).
    { apply (callsFrom_reachable zs (rounds zs maxRun) initial s b);
        [constructor | exact Hin]. }
    destruct (Hinv s Hr) as [Hsa' _].
    assert (Hne' : varName a <> varName b) by congruence.
    rewrite (proj1 (eligible_spec s b) Hel (varName a) Hba Hne') in Hsa'.
    discriminate.
  - simpl. fold st. destruct (missingStatements zs st) as [|m ms] eqn:E;
      [contradiction|].
    eexists. split; [reflexivity|].
    split; now apply (errorsOf_occurs (m :: ms)).
Qed.

End MutualCycle.

(** ** Acyclic inputs *)

Section Acyclic.
Context `{Collaborators}.
Variable zs : list ZodSchema.

Lemma NoDup_uniqueName (c : ZodSchema) :
  NoDup (map varName zs) -> In c zs -> uniqueName zs c.
Proof.
  unfold uniqueName. induction zs as [|x l IH]; intros Hnd Hc c' Hc' Heq;
    [contradiction|].
  simpl in Hnd. inversion Hnd as [|? ? Hx Hl]; subst.
  destruct Hc as [-> | Hc], Hc' as [-> | Hc'].
  - reflexivity.
  - exfalso. apply Hx. rewrite <- Heq. now apply in_map.
  - exfalso. apply Hx. rewrite Heq. now apply in_map.
  - now apply IH.
Qed.

Lemma NoDup_names_filter (f : ZodSchema -> bool) (l : list ZodSchema) :
  NoDup (map varName l) -> NoDup (map varName (filter f l)).
Proof.
  induction l as [|x l IH]; intros Hnd; simpl; [constructor|].
  inversion Hnd as [|? ? Hx Hl]; subst.
  destruct (f x); simpl; [|now apply IH].
  constructor; [|now apply IH].
  intros Hin. apply Hx. apply in_map_iff in Hin.
  destruct Hin as (y & Heq & Hy). apply filter_In in Hy.
  rewrite <- Heq. apply in_map. tauto.
Qed.

Lemma chain_head (ch : list string) (v : string) (rest : list string) :
  chain zs ch -> ch = v :: rest -> exists c, In c zs /\ varName c = v.
Proof.
  intros Hch. destruct Hch as [c Hc | v' d rest' (c & Hc & Hv & _) _];
    intros Heq; inversion Heq; subst; now exists c.
Qed.

(** A rank that decreases along the dependencies between candidates bounds
    the chains. *)
Lemma chain_length_rank (rank : string -> nat) (ch : list string) :
  (forall c c' : ZodSchema,
     In c zs -> In c' zs -> In (varName c') (dependencies c) ->
     varName c' <> varName c -> rank (varName c') < rank (varName c)) ->
  chain zs ch ->
  match ch with [] => True | v :: _ => length ch <= S (rank v) end.
Proof.
  intros Hrank. induction 1 as [c Hc | v d rest Hdep Hch IH]; [simpl; lia|].
  destruct Hdep as (c & Hc & Hv & Hd & Hne).
  destruct (chain_head _ d rest Hch eq_refl) as (c' & Hc' & Hd').
  subst v d. specialize (Hrank c c' Hc Hc' Hd Hne). simpl in *. lia.
Qed.

(** Adding a new name at the end keeps the order topological. *)
Lemma resolveOne_topological (st : State) (x : ZodSchema) :
  NoDup (map varName zs) -> In x zs ->
  OMap.has (statements st) (varName x) = false ->
  topological zs st -> topological zs (resolveOne st x).
Proof.
  intros Hnd Hx Hnew Htopo i c d Hc Hi Hd Hne.
  rewrite resolveOne_keys in *. rewrite Hnew in *. simpl in *.
  destruct (eligible st x) eqn:Hel; simpl in *; [|now apply (Htopo i c d)].
  destruct (Nat.lt_ge_cases i (length (OMap.keys (statements st)))) as [Hlt | Hge].
  - rewrite nth_error_app1 in Hi by assumption.
    destruct (Htopo i c d Hc Hi Hd Hne) as (j & Hj & Hnth).
    exists j. split; [assumption|]. rewrite nth_error_app1 by lia. exact Hnth.
  - rewrite nth_error_app2 in Hi by assumption.
    destruct (i - length (OMap.keys (statements st))) as [|m] eqn:Em;
      [|destruct m; discriminate].
    simpl in Hi. inversion Hi as [Heq].
    assert (c = x) by (symmetry; now apply (NoDup_uniqueName c Hnd Hc)).
    subst c.
    pose proof (proj1 (eligible_spec st x) Hel d Hd Hne) as Hhas.
    apply OMapFacts.has_In, In_nth_error in Hhas. destruct Hhas as (j & Hnth).
    assert (Hj : j < length (OMap.keys (statements st))).
    { apply nth_error_Some. congruence. }
    exists j. split; [lia|]. rewrite nth_error_app1 by assumption. exact Hnth.
Qed.

Lemma fold_topological (l : list ZodSchema) (st : State) :
  NoDup (map varName zs) -> incl l zs -> NoDup (map varName l) ->
  (forall c, In c l -> OMap.has (statements st) (varName c) = false) ->
  topological zs st -> topological zs (fold_left resolveOne l st).
Proof.
  intros Hnd. revert st.
  induction l as [|x l IH]; intros st Hincl Hl Hnew Htopo; simpl; [assumption|].
  inversion Hl as [|? ? Hx Hl']; subst.
  apply IH.
  - intros y Hy. apply Hincl. now right.
  - assumption.
  - intros c Hc. rewrite resolveOne_has. rewrite (Hnew c) by now right.
    destruct (String.eqb (varName x) (varName c)) eqn:E;
      [|now rewrite andb_false_r].
    apply String.eqb_eq in E. exfalso. apply Hx. rewrite E. now apply in_map.
  - apply resolveOne_topological; try assumption.
    + apply Hincl. now left.
    + apply Hnew. now left.
Qed.

Lemma round_topological (st : State) :
  NoDup (map varName zs) -> topological zs st -> topological zs (round zs st).
Proof.
  intros Hnd Htopo. apply fold_topological; try assumption.
  - intros c Hc. now apply pending_In in Hc.
  - now apply NoDup_names_filter.
  - intros c Hc. now apply pending_In in Hc.
Qed.

Lemma after_topological (k : nat) (st : State) :
  NoDup (map varName zs) -> topological zs st -> topological zs (after k zs st).
Proof.
  intros Hnd. revert st. induction k as [|k IH]; intros st Htopo; simpl;
    [assumption|].
  apply IH, round_topological; assumption.
Qed.

(** After [k] rounds, the candidates whose chains have at most [k] names
    are in the map. *)
Lemma after_resolves_depth (k : nat) (c : ZodSchema) :
  closed zs -> In c zs ->
  (forall rest, chain zs (varName c :: rest) -> length (varName c :: rest) <= k) ->
  OMap.has (statements (after k zs initial)) (varName c) = true.
Proof.
  intros Hclosed. revert c. induction k as [|k IH]; intros c Hc Hdepth.
  - specialize (Hdepth [] (chain_one zs c Hc)). simpl in Hdepth. lia.
  - rewrite after_S. apply round_resolves; [assumption|].
    apply eligible_spec. intros d Hd Hne.
    destruct (Hclosed c d Hc Hd Hne) as (c' & Hc' & Hname). subst d.
    apply IH; [assumption|]. intros rest Hch.
    assert (Hlong : chain zs (varName c :: varName c' :: rest)).
    { apply chain_cons; [|assumption]. now exists c. }
    apply Hdepth in Hlong. simpl in *. lia.
Qed.

(** A reachable map as long as the candidate list holds every name. *)
Lemma full_size_all_in (st : State) (c : ZodSchema) :
  reachable zs st -> OMap.size (statements st) = length zs -> In c zs ->
  OMap.has (statements st) (varName c) = true.
Proof.
  intros Hr Hsize Hc. apply OMapFacts.has_In.
  apply (NoDup_length_incl (l := OMap.keys (statements st)) (l' := map varName zs)).
  - now apply (reachable_NoDup zs).
  - unfold OMap.keys, OMap.size in *. rewrite !length_map. lia.
  - intros k Hk. apply OMapFacts.has_In in Hk.
    destruct (reachable_keys zs st k Hr Hk) as (c' & Hc' & <-).
    now apply in_map.
  - now apply in_map.
Qed.

(** With pairwise distinct names, a map that holds every name is as long as
    the candidate list. *)
Lemma all_in_full_size (st : State) :
  NoDup (map varName zs) -> reachable zs st ->
  (forall c, In c zs -> OMap.has (statements st) (varName c) = true) ->
  OMap.size (statements st) = length zs.
Proof.
  intros Hnd Hr Hall.
  assert (H1 : length (map varName zs) <= length (OMap.keys (statements st))).
  { apply NoDup_incl_length; [assumption|].
    intros k Hk. apply in_map_iff in Hk. destruct Hk as (c & <- & Hc).
    apply OMapFacts.has_In. now apply Hall. }
  assert (H2 : length (OMap.keys (statements st)) <= length (map varName zs)).
  { apply NoDup_incl_length; [now apply (reachable_NoDup zs)|].
    intros k Hk. apply OMapFacts.has_In in Hk.
    destruct (reachable_keys zs st k Hr Hk) as (c' & Hc' & <-).
    now apply in_map. }
  unfold OMap.keys, OMap.size in *. rewrite !length_map in *. lia.
Qed.

Lemma initial_topological : topological zs initial.
Proof. intros [|i] c d _ Hi; discriminate. Qed.

(** C7, amended.  Let the candidates bear pairwise distinct names, let
    every dependency other than a self-reference name a candidate, and let
    no dependency chain have more than [L] names, with [maxRun] at least
    [L].  Then the loop runs at most [L] rounds, every candidate is in the
    map when it ends, nothing is reported, and in the insertion order of
    the map every dependency of a candidate, self-reference apart, stands
    at a strictly earlier position than the candidate. *)
Theorem acyclic_resolves_in_dependency_order
    (maxRun : Z) (L : nat)
    (getSchemaName : string -> string) (print : Stmt -> string) :
  NoDup (map varName zs) ->
  closed zs ->
  (forall ch, chain zs ch -> length ch <= L) ->
  (Z.of_nat L <= maxRun)%Z ->
  let g := generateFrom zs maxRun getSchemaName print in
  let st := resolved zs maxRun in
  rounds zs maxRun <= L /\
  (forall c, In c zs -> OMap.has (statements st) (varName c) = true) /\
  missingStatements zs st = [] /\
  errors g = [] /\
  topological zs st.
Proof.
  intros Hnd Hclosed Hchains Hmax g st. subst g.
  destruct (resolve_spec zs maxRun) as (Hst & Hbefore & Hstop).
  assert (HL : forall c, In c zs ->
            OMap.has (statements (after L zs initial)) (varName c) = true).
  { intros c Hc. apply after_resolves_depth; try assumption.
    intros rest Hch. now apply Hchains. }
  assert (Hr : reachable zs st) by apply resolved_reachable.
  assert (Hrounds : rounds zs maxRun <= L).
  { destruct (Nat.le_gt_cases (rounds zs maxRun) L) as [Hle | Hgt]; [assumption|].
    specialize (Hbefore L Hgt). unfold guard in Hbefore.
    apply andb_true_iff in Hbefore. destruct Hbefore as [Hsize _].
    apply negb_true_iff, Nat.eqb_neq in Hsize. exfalso. apply Hsize.
    apply all_in_full_size; try assumption.
    apply after_reachable. constructor. }
  assert (Hall : forall c, In c zs -> OMap.has (statements st) (varName c) = true).
  { intros c Hc. unfold guard in Hstop. apply andb_false_iff in Hstop.
    destruct Hstop as [Hsize | Hn].
    - apply negb_false_iff, Nat.eqb_eq in Hsize. now apply full_size_all_in.
    - apply Z.ltb_ge in Hn.
      assert (Heq : rounds zs maxRun = L) by lia.
      unfold st. rewrite Hst, Heq. now apply HL. }
  assert (Hmiss : missingStatements zs st = []).
  { destruct (missingStatements zs st) as [|m ms] eqn:E; [reflexivity|].
    assert (Hin : In m (missingStatements zs st)) by (rewrite E; now left).
    apply missingStatements_In in Hin. destruct Hin as [Hin Hm].
    rewrite (Hall m Hin) in Hm. discriminate. }
  repeat split; try assumption.
  - simpl. fold st. now rewrite Hmiss.
  - unfold st. rewrite Hst. apply after_topological; [assumption|].
    apply initial_topological.
Qed.

End Acyclic.

(** ** Siblings of one pass *)

Section Siblings.
Context `{Collaborators}.

(** C1, amended.  The dependency test of a callback reads the map as it is
    when the callback runs, with what the earlier callbacks of the same
    pass have stored.  So a pending candidate whose dependencies,
    self-reference apart, are all in the map when its turn comes, be it
    since the round started or through earlier-iterated siblings, is
    resolved in that same round.  A candidate that still misses a
    dependency when its turn comes is skipped: its callback changes nothing
    and, no other pending candidate bearing its name, it is not resolved in
    that round, whatever the later-iterated siblings store. *)
Theorem sibling_unlocks_later_sibling_in_same_round
    (zs : list ZodSchema) (st : State)
    (pre post : list ZodSchema) (b : ZodSchema) :
  pending zs st = (pre ++ b :: post)%list ->
  let before := fold_left resolveOne pre st in
  ((forall d, In d (dependencies b) -> d <> varName b ->
              OMap.has (statements before) d = true) ->
   OMap.has (statements (resolveOne before b)) (varName b) = true /\
   OMap.has (statements (round zs st)) (varName b) = true) /\
  ((exists d, In d (dependencies b) /\ d <> varName b /\
              OMap.has (statements before) d = false) ->
   resolveOne before b = before /\
   ((forall c, In c (pre ++ post) -> varName c <> varName b) ->
    OMap.has (statements (round zs st)) (varName b) = false)).
Proof.
  intros Hp before.
  assert (Hb : OMap.has (statements st) (varName b) = false).
  { assert (Hin : In b (pending zs st)).
    { rewrite Hp. apply in_or_app. right. now left. }
    now apply pending_In in Hin. }
  unfold round. rewrite Hp, fold_left_app. simpl. fold before. split.
  - intros Hdeps. apply eligible_spec in Hdeps.
    assert (Hnow : OMap.has (statements (resolveOne before b)) (varName b) = true).
    { rewrite resolveOne_has, Hdeps, String.eqb_refl. apply orb_true_r. }
    split; [exact Hnow | now apply fold_has_mono].
  - intros Hmiss. apply eligible_false in Hmiss.
    split; [now apply resolveOne_skip|]. intros Hnames.
    rewrite (resolveOne_skip _ _ Hmiss).
    destruct (OMap.has (statements (fold_left resolveOne post before)) (varName b))
      eqn:E; [exfalso | reflexivity].
    apply fold_has_inv in E. destruct E as [E | (c & Hc & Heq)].
    + apply fold_has_inv in E. destruct E as [E | (c & Hc & Heq)].
      * congruence.
      * apply (Hnames c); [apply in_or_app; now left | assumption].
    + apply (Hnames c); [apply in_or_app; now right | assumption].
Qed.

Lemma pending_initial (zs : list ZodSchema) : pending zs initial = zs.
Proof.
  unfold pending. simpl. induction zs as [|c l IH]; simpl;
    [reflexivity | now rewrite IH].
Qed.

(** One round from the empty collections, when [maxRun] is 1 and there is a
    candidate. *)
Lemma resolve_one_round (zs : list ZodSchema) :
  zs <> [] -> resolve zs 1 = (1, fold_left resolveOne zs initial).
Proof.
  intros Hne. unfold resolve. simpl. unfold guard. simpl.
  destruct zs as [|c l]; [congruence|]. simpl.
  unfold round. now rewrite pending_initial.
Qed.

Lemma three_orders (A B C : ZodSchema) (zs : list ZodSchema) :
  A <> B -> B <> C -> A <> C -> Permutation zs [A; B; C] ->
  zs = [A; B; C] \/ zs = [A; C; B] \/ zs = [C; A; B] \/
  zs = [B; A; C] \/ zs = [B; C; A] \/ zs = [C; B; A].
Proof.
  intros Hab Hbc Hac Hperm.
  assert (Hnd : NoDup zs).
  { apply (Permutation_NoDup (Permutation_sym Hperm)).
    repeat constructor; simpl; intuition congruence. }
  pose proof (Permutation_length Hperm) as Hlen.
  destruct zs as [|x [|y [|z [|w l]]]]; try discriminate.
  assert (Hx : In x [A; B; C]) by (apply (Permutation_in _ Hperm); simpl; auto).
  assert (Hy : In y [A; B; C]) by (apply (Permutation_in _ Hperm); simpl; auto).
  assert (Hz : In z [A; B; C]) by (apply (Permutation_in _ Hperm); simpl; auto).
  inversion Hnd as [|? ? Hx' Hnd']; subst.
  inversion Hnd' as [|? ? Hy' _]; subst.
  simpl in *.
  destruct Hx as [<- | [<- | [<- | []]]];
    destruct Hy as [<- | [<- | [<- | []]]];
    destruct Hz as [<- | [<- | [<- | []]]];
    try (exfalso; tauto); auto 10.
Qed.

(** C2, amended.  Let three candidates form a chain: [A] has no
    dependency, [B] depends on [A], [C] on [B], under three distinct names.
    With [maxRun = 1] the loop runs one round, and what resolves depends on
    the extraction order.  [A] always resolves.  Extracted in the order
    [A], [B], [C], all three resolve and nothing is reported.  When [A]
    comes before [B] but [C] is not last, [A] and [B] resolve and [C] is
    reported.  When [B] comes before [A], only [A] resolves and the other
    two are reported. *)
Theorem chain_of_three_with_one_round
    (A B C : ZodSchema) (zs : list ZodSchema)
    (getSchemaName : string -> string) (print : Stmt -> string) :
  dependencies A = [] ->
  dependencies B = [varName A] ->
  dependencies C = [varName B] ->
  varName A <> varName B -> varName B <> varName C -> varName A <> varName C ->
  Permutation zs [A; B; C] ->
  let g := generateFrom zs 1 getSchemaName print in
  let st := resolved zs 1 in
  rounds zs 1 = 1 /\
  OMap.has (statements st) (varName A) = true /\
  (zs = [A; B; C] /\
   OMap.keys (statements st) = [varName A; varName B; varName C] /\
   missingStatements zs st = [] /\ errors g = []
   \/
   (zs = [A; C; B] \/ zs = [C; A; B]) /\
   OMap.keys (statements st) = [varName A; varName B] /\
   missingStatements zs st = [C] /\
   errors g = [errorHeader ++ varName C]
   \/
   (zs = [B; A; C] \/ zs = [B; C; A] \/ zs = [C; B; A]) /\
   OMap.keys (statements st) = [varName A] /\
   (missingStatements zs st = [B; C] \/ missingStatements zs st = [C; B]) /\
   (errors g = [errorHeader ++ varName B ++ nl ++ varName C] \/
    errors g = [errorHeader ++ varName C ++ nl ++ varName B])).
Proof.
  intros HA HB HC Hab Hbc Hac Hperm g st. subst g st.
  assert (HAB : A <> B) by congruence.
  assert (HBC : B <> C) by congruence.
  assert (HAC : A <> C) by congruence.
  assert (Hne : zs <> []).
  { intros ->. apply Permutation_length in Hperm. discriminate. }
  unfold rounds, resolved, generateFrom, errors.
  unfold resolved. rewrite (resolve_one_round zs Hne).
  cbn [fst snd].
  pose proof (proj2 (String.eqb_neq _ _) Hab) as Eab.
  pose proof (proj2 (String.eqb_neq _ _) Hbc) as Ebc.
  pose proof (proj2 (String.eqb_neq _ _) Hac) as Eac.
  assert (Eba : String.eqb (varName B) (varName A) = false)
    by (apply String.eqb_neq; congruence).
  assert (Ecb : String.eqb (varName C) (varName B) = false)
    by (apply String.eqb_neq; congruence).
  assert (Eca : String.eqb (varName C) (varName A) = false)
    by (apply String.eqb_neq; congruence).
  split; [reflexivity|].
  destruct (three_orders A B C zs HAB HBC HAC Hperm)
    as [-> | [-> | [-> | [-> | [-> | ->]]]]];
    unfold missingStatements, resolveOne, missingDependencies, isCircular, includes;
    cbn [fold_left];
    repeat (rewrite ?HA, ?HB, ?HC;
            cbn [filter existsb negb length Nat.eqb statements typeImports
                 OMap.has OMap.set OMap.keys map fst snd orb andb errorsOf join
                 varName initial];
            rewrite ?String.eqb_refl, ?Eab, ?Ebc, ?Eac, ?Eba, ?Ecb, ?Eca);
    (split; [reflexivity|]);
    [ left | right; left | right; left | right; right | right; right | right; right ];
    repeat split; auto.
Qed.

End Siblings.

(** ** Colliding names *)

Section Collisions.
Context `{Collaborators}.



End Collisions.

(** * Concrete runs *)

Module Runs.
Import Fixture.
#[local] Existing Instance collaborators.

(** C1 as the specification has it fails.  With [A] extracted before [B],
    [B] misses its one dependency when the round starts, [A]'s callback
    stores it, and [B] is resolved by the next callback of the same pass:
    a single round resolves both. *)
Lemma sibling_waits_for_later_round_refuted :
  pending [A; B] initial = [A; B] /\
  dependencies B = ["aSchema"] /\
  OMap.has (statements initial) "aSchema" = false /\
  OMap.has (statements (resolveOne initial A)) "aSchema" = true /\
  OMap.has (statements (round [A; B] initial)) "bSchema" = true /\
  rounds [A; B] 1 = 1 /\
  OMap.keys (statements (resolved [A; B] 1)) = ["aSchema"; "bSchema"] /\
  errors (run [A; B] 1) = [].
Proof. vm_compute. repeat split. Qed.

Lemma sibling_unlocks_later_sibling_witness :
  pending [A; B] initial = ([A] ++ B :: [])%list /\
  OMap.has (statements (round [A; B] initial)) "bSchema" = true.
Proof.
  split; [reflexivity|].
  pose proof (sibling_unlocks_later_sibling_in_same_round
                [A; B] initial [A] [] B eq_refl) as W.
  cbv zeta in W. destruct W as [W _]. apply W.
  intros d Hd Hne. simpl in Hd. destruct Hd as [<- | []]. reflexivity.
Defined.

(** C2 as the specification has it fails: extracted in dependency order,
    the chain of three resolves whole in the one round of [maxRun = 1]. *)
Lemma chain_in_order_resolves_in_one_round :
  Permutation [A; B; C] [A; B; C] /\
  dependencies A = [] /\ dependencies B = [varName A] /\
  dependencies C = [varName B] /\
  rounds [A; B; C] 1 = 1 /\
  OMap.keys (statements (resolved [A; B; C] 1)) = ["aSchema"; "bSchema"; "cSchema"] /\
  missingStatements [A; B; C] (resolved [A; B; C] 1) = [] /\
  errors (run [A; B; C] 1) = [].
Proof. split; [apply Permutation_refl|]. vm_compute. repeat split. Qed.

Lemma chain_of_three_witness :
  Permutation [C; B; A] [A; B; C] /\
  rounds [C; B; A] 1 = 1 /\
  OMap.has (statements (resolved [C; B; A] 1)) "aSchema" = true.
Proof.
  assert (Hperm : Permutation [C; B; A] [A; B; C])
    by exact (Permutation_rev [C; B; A]).
  split; [exact Hperm|].
  pose proof (chain_of_three_with_one_round A B C [C; B; A]
                (fun id => id) (fun node => node)
                eq_refl eq_refl eq_refl
                ltac:(discriminate) ltac:(discriminate) ltac:(discriminate)
                Hperm) as W.
  cbv zeta in W. destruct W as (W1 & W2 & _). split; assumption.
Defined.

(** C5 as the specification has it fails.  [Nrec] lists itself and [X];
    a second declaration bears its name.  In round one [Nrec] comes before
    [X] and is skipped, then [X] and the namesake are stored.  When round
    two starts every other dependency of [Nrec] is in the map, yet the
    round does not walk it, its name being there: no callback ever stores
    it, the entry under its name is the namesake's, nothing is imported,
    [hasCircularDependencies] is false and nothing is reported. *)
Lemma self_reference_shadowed_by_namesake :
  In MoreFixture.Nrec [MoreFixture.Nrec; MoreFixture.X; MoreFixture.N'] /\
  In (varName MoreFixture.Nrec) (dependencies MoreFixture.Nrec) /\
  1 < rounds [MoreFixture.Nrec; MoreFixture.X; MoreFixture.N'] 10 /\
  (forall d, In d (dependencies MoreFixture.Nrec) ->
     d <> varName MoreFixture.Nrec ->
     OMap.has
       (statements
          (after 1 [MoreFixture.Nrec; MoreFixture.X; MoreFixture.N'] initial)) d
     = true) /\
  pending [MoreFixture.Nrec; MoreFixture.X; MoreFixture.N']
    (after 1 [MoreFixture.Nrec; MoreFixture.X; MoreFixture.N'] initial) = [] /\
  ~ everStored [MoreFixture.Nrec; MoreFixture.X; MoreFixture.N'] 10
      MoreFixture.Nrec /\
  statements (resolved [MoreFixture.Nrec; MoreFixture.X; MoreFixture.N'] 10)
    = [("xSchema", {| resolvedTypeName := "X"; value := statement MoreFixture.X |});
       ("nSchema", {| resolvedTypeName := "n"; value := statement MoreFixture.N' |})] /\
  typeImports (resolved [MoreFixture.Nrec; MoreFixture.X; MoreFixture.N'] 10) = [] /\
  hasCircularDependencies
    (run [MoreFixture.Nrec; MoreFixture.X; MoreFixture.N'] 10) = false /\
  errors (run [MoreFixture.Nrec; MoreFixture.X; MoreFixture.N'] 10) = [].
Proof.
  split; [left; reflexivity|].
  split; [left; reflexivity|].
  split; [vm_compute; lia|].
  split.
  { intros d Hd Hne. simpl in Hd. destruct Hd as [<- | [<- | []]].
    - now contradiction Hne.
    - vm_compute. reflexivity. }
  split; [vm_compute; reflexivity|].
  split.
  { intros (st & Hin & Hel). vm_compute in Hin.
    destruct Hin as [E | [E | [E | []]]]; try discriminate E.
    inversion E; subst. vm_compute in Hel. discriminate Hel. }
  vm_compute. repeat split.
Qed.

Lemma self_reference_at_its_turn_witness :
  0 < rounds [MoreFixture.X; MoreFixture.Nrec] 10 /\
  pending [MoreFixture.X; MoreFixture.Nrec]
    (after 0 [MoreFixture.X; MoreFixture.Nrec] initial)
  = ([MoreFixture.X] ++ MoreFixture.Nrec :: [])%list /\
  OMap.has (statements initial) "xSchema" = false /\
  hasCircularDependencies (run [MoreFixture.X; MoreFixture.Nrec] 10) = true /\
  OMap.get (statements (resolved [MoreFixture.X; MoreFixture.Nrec] 10)) "nSchema"
  = Some {| resolvedTypeName := "N";
            value := transformRecursiveSchema "z" (statement MoreFixture.Nrec) "N" |}.
Proof.
  assert (Hrounds : 0 < rounds [MoreFixture.X; MoreFixture.Nrec] 10)
    by (vm_compute; lia).
  assert (Hp : pending [MoreFixture.X; MoreFixture.Nrec]
                 (after 0 [MoreFixture.X; MoreFixture.Nrec] initial)
               = ([MoreFixture.X] ++ MoreFixture.Nrec :: [])%list)
    by reflexivity.
  assert (Hself : In (varName MoreFixture.Nrec) (dependencies MoreFixture.Nrec))
    by (left; reflexivity).
  assert (Hdeps : forall d, In d (dependencies MoreFixture.Nrec) ->
            d <> varName MoreFixture.Nrec ->
            OMap.has
              (statements
                 (fold_left resolveOne [MoreFixture.X]
                    (after 0 [MoreFixture.X; MoreFixture.Nrec] initial))) d
            = true).
  { intros d Hd Hne. simpl in Hd. destruct Hd as [<- | [<- | []]].
    - now contradiction Hne.
    - vm_compute. reflexivity. }
  assert (Huniq : uniqueName [MoreFixture.X; MoreFixture.Nrec] MoreFixture.Nrec).
  { intros c [<- | [<- | []]] E; [discriminate E | reflexivity]. }
  pose proof (self_reference_resolved_at_its_turn
                [MoreFixture.X; MoreFixture.Nrec] 10
                (fun id => id ++ "Schema") (fun node => node) 0
                MoreFixture.Nrec [MoreFixture.X] []
                Hrounds Hp Hself Hdeps) as W.
  cbv zeta in W.
  destruct W as (_ & _ & _ & _ & _ & _ & _ & _ & Wflag & Wget & _).
  exact (conj Hrounds (conj Hp (conj eq_refl
           (conj Wflag (proj2 (Wget Huniq)))))).
Defined.

(** C6 as the specification has it fails.  [P] and [Q] list each other and
    neither lists itself, but a third declaration is also named [pSchema]
    and has no dependency: it is stored in round one, which lets [Q]
    through in round two, and nothing is reported. *)
Lemma mutual_cycle_unlocked_by_namesake :
  In P [P; Q; P'] /\ In Q [P; Q; P'] /\
  In (varName Q) (dependencies P) /\ In (varName P) (dependencies Q) /\
  ~ In (varName P) (dependencies P) /\ ~ In (varName Q) (dependencies Q) /\
  OMap.has (statements (resolved [P; Q; P'] 10)) (varName P) = true /\
  OMap.get (statements (resolved [P; Q; P'] 10)) (varName Q)
    = Some {| resolvedTypeName := "Q"; value := statement Q |} /\
  errors (run [P; Q; P'] 10) = [].
Proof.
  repeat split; try (vm_compute; tauto).
  - intros [E | []]. discriminate E.
  - intros [E | []]. discriminate E.
Qed.

Lemma mutual_cycle_witness :
  uniqueName [P; Q] P /\ uniqueName [P; Q] Q /\
  OMap.has (statements (resolved [P; Q] 10)) "pSchema" = false /\
  OMap.has (statements (resolved [P; Q] 10)) "qSchema" = false /\
  In P (missingStatements [P; Q] (resolved [P; Q] 10)).
Proof.
  assert (HuP : uniqueName [P; Q] P).
  { intros c [<- | [<- | []]] E; [reflexivity | discriminate E]. }
  assert (HuQ : uniqueName [P; Q] Q).
  { intros c [<- | [<- | []]] E; [discriminate E | reflexivity]. }
  assert (HPP : ~ In (varName P) (dependencies P))
    by (intros [E | []]; discriminate E).
  assert (HQQ : ~ In (varName Q) (dependencies Q))
    by (intros [E | []]; discriminate E).
  pose proof (mutual_cycle_never_resolves [P; Q] 10
                (fun id => id) (fun node => node) P Q
                ltac:(left; reflexivity) ltac:(right; left; reflexivity)
                ltac:(left; reflexivity) ltac:(left; reflexivity)
                HPP HQQ HuP HuQ) as W.
  cbv zeta in W. destruct W as (W1 & W2 & _ & _ & W3 & _).
  exact (conj HuP (conj HuQ (conj W1 (conj W2 W3)))).
Defined.

(** C7 as the specification has it fails, in two ways.  A declaration that
    refers to one that was not extracted has a chain of one name and is
    never resolved.  And with two declarations under the name [aSchema],
    the later overwrites the entry of the earlier where it stands, ahead of
    the [bSchema] it refers to. *)
Lemma acyclic_claim_refuted :
  ((forall ch, chain [Dangling] ch -> length ch <= 1) /\
   (Z.of_nat 1 <= 10)%Z /\
   OMap.has (statements (resolved [Dangling] 10)) (varName Dangling) = false /\
   errors (run [Dangling] 10) = [errorHeader ++ "dSchema"]) /\
  ((forall ch, chain [A'; B'; A''] ch -> length ch <= 2) /\
   closed [A'; B'; A''] /\
   (Z.of_nat 2 <= 10)%Z /\
   OMap.keys (statements (resolved [A'; B'; A''] 10)) = ["aSchema"; "bSchema"] /\
   OMap.get (statements (resolved [A'; B'; A''] 10)) "aSchema"
     = Some {| resolvedTypeName := "a"; value := statement A'' |} /\
   dependencies A'' = ["bSchema"] /\
   ~ topological [A'; B'; A''] (resolved [A'; B'; A''] 10)).
Proof.
  split.
  - split; [|vm_compute; repeat split; discriminate].
    intros ch Hch.
    assert (Hrank : forall c c' : ZodSchema,
              In c [Dangling] -> In c' [Dangling] ->
              In (varName c') (dependencies c) -> varName c' <> varName c ->
              0 < 0) by rank_cases.
    pose proof (chain_length_rank [Dangling] (fun _ => 0) ch Hrank Hch) as Hlen.
    destruct ch; simpl in *; lia.
  - split; [|split; [|split; [|split; [|split; [|split]]]]].
    + intros ch Hch.
      set (rk := fun v : string => if String.eqb v "aSchema" then 1 else 0).
      assert (Hrank : forall c c' : ZodSchema,
                In c [A'; B'; A''] -> In c' [A'; B'; A''] ->
                In (varName c') (dependencies c) -> varName c' <> varName c ->
                rk (varName c') < rk (varName c)) by rank_cases.
      pose proof (chain_length_rank [A'; B'; A''] rk ch Hrank Hch) as Hlen.
      destruct ch as [|v ch]; [simpl; lia|].
      assert (rk v <= 1) by (unfold rk; destruct (String.eqb v "aSchema"); lia).
      simpl in *. lia.
    + intros c d Hc Hd Hne. simpl in Hc.
      destruct Hc as [<- | [<- | [<- | []]]]; simpl in Hd; try contradiction.
      destruct Hd as [<- | []]. exists B'. split; [simpl; tauto | reflexivity].
    + vm_compute. discriminate.
    + vm_compute. reflexivity.
    + vm_compute. reflexivity.
    + reflexivity.
    + intros Htopo.
      assert (Hk : nth_error (OMap.keys (statements (resolved [A'; B'; A''] 10))) 0
                   = Some (varName A'')) by (vm_compute; reflexivity).
      destruct (Htopo 0 A'' "bSchema") as (j & Hj & _).
      * simpl; tauto.
      * exact Hk.
      * left; reflexivity.
      * discriminate.
      * lia.
Qed.

Lemma acyclic_chain_witness :
  NoDup (map varName [C; B; A]) /\ closed [C; B; A] /\
  (forall ch, chain [C; B; A] ch -> length ch <= 3) /\
  rounds [C; B; A] 10 <= 3 /\
  missingStatements [C; B; A] (resolved [C; B; A] 10) = [] /\
  topological [C; B; A] (resolved [C; B; A] 10).
Proof.
  assert (Hnd : NoDup (map varName [C; B; A])).
  { simpl. repeat constructor; simpl; intros Hin;
      repeat (destruct Hin as [Hin | Hin]); try contradiction; discriminate Hin. }
  assert (Hclosed : closed [C; B; A]).
  { intros c d Hc Hd Hne. simpl in Hc.
    destruct Hc as [<- | [<- | [<- | []]]]; simpl in Hd; try contradiction;
      destruct Hd as [<- | []].
    - exists B. split; [simpl; tauto | reflexivity].
    - exists A. split; [simpl; tauto | reflexivity]. }
  assert (Hchains : forall ch, chain [C; B; A] ch -> length ch <= 3).
  { intros ch Hch.
    assert (Hrank : forall c c' : ZodSchema,
              In c [C; B; A] -> In c' [C; B; A] ->
              In (varName c') (dependencies c) -> varName c' <> varName c ->
              rank (varName c') < rank (varName c)) by rank_cases.
    pose proof (chain_length_rank [C; B; A] rank ch Hrank Hch) as Hlen.
    destruct ch as [|v ch]; [simpl; lia|].
    assert (rank v <= 2).
    { unfold rank. destruct (String.eqb v "aSchema"); [lia|].
      destruct (String.eqb v "bSchema"); lia. }
    simpl in *. lia. }
  pose proof (acyclic_resolves_in_dependency_order [C; B; A] 10 3
                (fun id => id) (fun node => node)
                Hnd Hclosed Hchains ltac:(lia)) as W.
  cbv zeta in W. destruct W as (W1 & _ & W2 & _ & W3).
  exact (conj Hnd (conj Hclosed (conj Hchains (conj W1 (conj W2 W3))))).
Defined.

Lemma maxRun_zero_witness :
  (0 <= 0)%Z /\ [A; B] <> [] /\
  rounds [A; B] 0 = 0 /\
  errors (run [A; B] 0) = [errorHeader ++ "aSchema" ++ nl ++ "bSchema"] /\
  hasCircularDependencies (run [A; B] 0) = false.
Proof.
  assert (Hmax : (0 <= 0)%Z) by lia.
  assert (Hne : [A; B] <> []) by discriminate.
  pose proof (maxRun_nonpositive_resolves_nothing [A; B] 0
                (fun id => id ++ "Schema") (fun node => node) Hmax Hne) as W.
  cbv zeta in W. destruct W as (W1 & _ & _ & W2 & _ & _ & _ & W3).
  exact (conj Hmax (conj Hne (conj W1 (conj W2 W3)))).
Defined.



End Runs.

(** * Further properties of the resolver *)

Section MapInvariants.
Context `{Collaborators}.
Variable zs : list ZodSchema.

Lemma set_In {V} (m : OMap.t V) (k k' : string) (v r : V) :
  In (k', r) (OMap.set m k v) -> (k' = k /\ r = v) \/ In (k', r) m.
Proof.
  induction m as [|[k0 v0] m IH]; simpl.
  - intros [E | []]. inversion E. now left.
  - destruct (String.eqb k0 k) eqn:E; simpl.
    + apply String.eqb_eq in E. subst k0.
      intros [E' | Hin]; [inversion E'; now left | right; now right].
    + intros [E' | Hin]; [right; now left|].
      destruct (IH Hin) as [Hnew | Hold]; [now left | right; now right].
Qed.

Lemma has_entry {V} (m : OMap.t V) (k : string) :
  OMap.has m k = true -> exists r, In (k, r) m.
Proof.
  intros Hk. apply OMapFacts.has_In in Hk. apply in_map_iff in Hk.
  destruct Hk as ([k' r] & Heq & Hin). simpl in Heq. subst k'. now exists r.
Qed.

Lemma size_set {V} (m : OMap.t V) (k : string) (v : V) :
  OMap.size (OMap.set m k v) = if OMap.has m k then OMap.size m else S (OMap.size m).
Proof.
  unfold OMap.size. induction m as [|[k0 v0] m IH]; simpl; [reflexivity|].
  destruct (String.eqb k0 k); simpl; [reflexivity|].
  rewrite IH. now destruct (OMap.has m k).
Qed.

(** Every entry was written for a candidate of that name whose other
    dependencies are in the map. *)
Lemma reachable_provenance (st : State) (k : string) (r : Resolved) :
  reachable zs st -> In (k, r) (statements st) ->
  exists c, In c zs /\ varName c = k /\ r = entryOf c /\
            forall d, In d (dependencies c) -> d <> k ->
                      OMap.has (statements st) d = true.
Proof.
  intros Hr. revert k r. induction Hr as [|st c Hr IH Hc]; intros k r Hin;
    [contradiction|].
  destruct (eligible st c) eqn:Hel;
    [|rewrite (resolveOne_skip st c Hel) in *; now apply IH].
  rewrite resolveOne_statements, Hel in Hin.
  destruct (set_In _ _ _ _ _ Hin) as [[-> ->] | Hold].
  - exists c. repeat split; try assumption. intros d Hd Hne.
    apply resolveOne_has_mono. now apply (proj1 (eligible_spec st c) Hel).
  - destruct (IH k r Hold) as (c0 & Hc0 & Hname & Hentry & Hdeps).
    exists c0. repeat split; try assumption. intros d Hd Hne.
    apply resolveOne_has_mono. now apply Hdeps.
Qed.

Lemma reachable_typeImports_NoDup (st : State) :
  reachable zs st -> NoDup (typeImports st).
Proof.
  induction 1 as [|st c Hr IH Hc]; [constructor|].
  rewrite resolveOne_typeImports.
  destruct (eligible st c && isCircular c); [|assumption].
  unfold OSet.add. destruct (includes (typeImports st) (typeName c)) eqn:E;
    [assumption|].
  apply NoDup_app; [assumption | repeat constructor; intros [] |].
  intros x Hx [<- | []]. apply includes_In in Hx. congruence.
Qed.

Lemma reachable_size_le (st : State) :
  reachable zs st -> OMap.size (statements st) <= length zs.
Proof.
  intros Hr.
  assert (Hle : length (OMap.keys (statements st)) <= length (map varName zs)).
  { apply NoDup_incl_length; [now apply (reachable_NoDup zs)|].
    intros k Hk. apply OMapFacts.has_In in Hk.
    destruct (reachable_keys zs st k Hr Hk) as (c & Hc & <-). now apply in_map. }
  unfold OMap.keys, OMap.size in *. now rewrite !length_map in Hle.
Qed.

(** X1.  Every entry of the map [generate] ends with was written for a
    candidate of that name: it carries the candidate's type name and either
    its statement or, for a candidate that lists itself, the statement
    passed through [transformRecursiveSchema]; and every other name that
    candidate refers to is in the map too. *)
Theorem resolved_entry_provenance
    (maxRun : Z) (k : string) (r : Resolved) :
  In (k, r) (statements (resolved zs maxRun)) ->
  exists c,
    In c zs /\ varName c = k /\
    resolvedTypeName r = typeName c /\
    value r = (if isCircular c
               then transformRecursiveSchema "z" (statement c) (typeName c)
               else statement c) /\
    forall d, In d (dependencies c) -> d <> varName c ->
              OMap.has (statements (resolved zs maxRun)) d = true.
Proof.
  intros Hin.
  destruct (reachable_provenance _ k r (resolved_reachable zs maxRun) Hin)
    as (c & Hc & Hname & Hentry & Hdeps).
  exists c. subst k r. unfold entryOf.
  repeat split; try assumption; now destruct (isCircular c).
Qed.

(** X2.  Whatever the candidates and [maxRun], the names of the final map
    are pairwise distinct and are names of candidates, the map has no more
    entries than there are candidates, and the import set holds no type
    name twice. *)
Theorem resolved_collections_well_formed (maxRun : Z) :
  NoDup (OMap.keys (statements (resolved zs maxRun))) /\
  incl (OMap.keys (statements (resolved zs maxRun))) (map varName zs) /\
  OMap.size (statements (resolved zs maxRun)) <= length zs /\
  NoDup (typeImports (resolved zs maxRun)).
Proof.
  pose proof (resolved_reachable zs maxRun) as Hr.
  split; [now apply (reachable_NoDup zs)|].
  split; [|split; [now apply reachable_size_le
                  | now apply reachable_typeImports_NoDup]].
  intros k Hk. apply OMapFacts.has_In in Hk.
  destruct (reachable_keys zs _ k Hr Hk) as (c & Hc & <-). now apply in_map.
Qed.




End MapInvariants.

Section FixedPoint.
Context `{Collaborators}.
Variable zs : list ZodSchema.

Lemma resolveOne_size (st : State) (c : ZodSchema) :
  OMap.size (statements (resolveOne st c)) =
  if eligible st c && negb (OMap.has (statements st) (varName c))
  then S (OMap.size (statements st)) else OMap.size (statements st).
Proof.
  rewrite resolveOne_statements. destruct (eligible st c); simpl; [|reflexivity].
  rewrite size_set. now destruct (OMap.has (statements st) (varName c)).
Qed.

Lemma fold_size_mono (l : list ZodSchema) (st : State) :
  OMap.size (statements st) <= OMap.size (statements (fold_left resolveOne l st)).
Proof.
  revert st. induction l as [|c l IH]; intros st; simpl; [lia|].
  specialize (IH (resolveOne st c)). rewrite resolveOne_size in IH.
  destruct (eligible st c && negb (OMap.has (statements st) (varName c))); lia.
Qed.

(** A pass over candidates that are not in the map either adds an entry or
    changes nothing. *)
Lemma fold_same_size (l : list ZodSchema) (st : State) :
  (forall c, In c l -> OMap.has (statements st) (varName c) = false) ->
  OMap.size (statements (fold_left resolveOne l st)) = OMap.size (statements st) ->
  fold_left resolveOne l st = st.
Proof.
  induction l as [|c l IH]; intros Hnew Hsize; simpl in *; [reflexivity|].
  destruct (eligible st c) eqn:Hel.
  - pose proof (fold_size_mono l (resolveOne st c)) as Hmono.
    rewrite resolveOne_size, Hel, (Hnew c) in Hmono by now left.
    simpl in Hmono. lia.
  - rewrite (resolveOne_skip st c Hel) in *. apply IH; [|assumption].
    intros x Hx. apply Hnew. now right.
Qed.

Lemma round_same_size (st : State) :
  OMap.size (statements (round zs st)) = OMap.size (statements st) ->
  round zs st = st.
Proof.
  apply fold_same_size. intros c Hc. now apply pending_In in Hc.
Qed.

Lemma pending_nil (st : State) :
  (forall c, In c zs -> OMap.has (statements st) (varName c) = true) ->
  pending zs st = [].
Proof.
  intros Hall. destruct (pending zs st) as [|c l] eqn:E; [reflexivity|].
  assert (Hin : In c (pending zs st)) by (rewrite E; now left).
  apply pending_In in Hin. destruct Hin as [Hin Hc].
  rewrite (Hall c Hin) in Hc. discriminate.
Qed.

Lemma full_round (st : State) :
  reachable zs st -> OMap.size (statements st) = length zs -> round zs st = st.
Proof.
  intros Hr Hsize. unfold round. rewrite pending_nil; [reflexivity|].
  intros c Hc. now apply (full_size_all_in zs).
Qed.

Lemma after_fixed (k : nat) (st : State) :
  round zs st = st -> after k zs st = st.
Proof.
  intros Hfix. induction k as [|k IH]; simpl; [reflexivity|].
  now rewrite Hfix.
Qed.

(** After [k] rounds the map has [k] entries at least, or the rounds have
    come to a standstill. *)
Lemma after_progress (k : nat) :
  k <= OMap.size (statements (after k zs initial)) \/
  round zs (after k zs initial) = after k zs initial.
Proof.
  induction k as [|k IH]; [left; simpl; lia|].
  rewrite after_S. destruct IH as [Hsize | Hfix]; [|right; now rewrite !Hfix].
  set (st := after k zs initial) in *.
  pose proof (fold_size_mono (pending zs st) st) as Hmono. fold (round zs st) in Hmono.
  destruct (Nat.eq_dec (OMap.size (statements (round zs st))) (OMap.size (statements st)))
    as [Heq | Hne].
  - right. pose proof (round_same_size st Heq) as Hfix. now rewrite !Hfix.
  - left. lia.
Qed.

(** As many rounds as there are candidates bring the rounds to a
    standstill. *)
Lemma after_length_fixed :
  round zs (after (length zs) zs initial) = after (length zs) zs initial.
Proof.
  destruct (after_progress (length zs)) as [Hsize | Hfix]; [|exact Hfix].
  assert (Hr : reachable zs (after (length zs) zs initial))
    by (apply after_reachable; constructor).
  apply full_round; [assumption|].
  pose proof (reachable_size_le zs _ Hr). lia.
Qed.

Lemma resolved_enough (maxRun : Z) :
  (Z.of_nat (length zs) <= maxRun)%Z ->
  resolved zs maxRun = after (length zs) zs initial.
Proof.
  intros Hmax. destruct (resolve_spec zs maxRun) as (Hst & _ & Hstop).
  destruct (Nat.le_gt_cases (length zs) (rounds zs maxRun)) as [Hle | Hgt].
  - rewrite Hst.
    replace (rounds zs maxRun) with (length zs + (rounds zs maxRun - length zs)) by lia.
    rewrite after_add. apply after_fixed, after_length_fixed.
  - unfold guard in Hstop. apply andb_false_iff in Hstop.
    destruct Hstop as [Hsize | Hn]; [|apply Z.ltb_ge in Hn; lia].
    apply negb_false_iff, Nat.eqb_eq in Hsize.
    assert (Hfix : round zs (resolved zs maxRun) = resolved zs maxRun).
    { apply full_round; [apply resolved_reachable | assumption]. }
    replace (length zs) with (rounds zs maxRun + (length zs - rounds zs maxRun)) by lia.
    rewrite after_add, <- Hst. symmetry. now apply after_fixed.
Qed.

(** X4.  A [maxRun] equal to the number of candidates is always enough:
    every larger value ends with the same map and the same import set, and
    one more pass over them would change nothing. *)
Theorem maxRun_number_of_candidates_suffices (maxRun : Z) :
  (Z.of_nat (length zs) <= maxRun)%Z ->
  resolved zs maxRun = resolved zs (Z.of_nat (length zs)) /\
  round zs (resolved zs maxRun) = resolved zs maxRun.
Proof.
  intros Hmax. rewrite (resolved_enough maxRun Hmax).
  rewrite (resolved_enough (Z.of_nat (length zs))) by lia.
  split; [reflexivity | apply after_length_fixed].
Qed.

(** X5.  With [maxRun] at least the number of candidates, every candidate
    that is reported has a dependency, other than itself, whose name is not
    in the final map: nothing is reported for want of rounds. *)
Theorem reported_candidate_is_blocked (maxRun : Z) (c : ZodSchema) :
  (Z.of_nat (length zs) <= maxRun)%Z ->
  In c (missingStatements zs (resolved zs maxRun)) ->
  exists d, In d (dependencies c) /\ d <> varName c /\
            OMap.has (statements (resolved zs maxRun)) d = false.
Proof.
  intros Hmax Hin. apply missingStatements_In in Hin. destruct Hin as [Hc Hmiss].
  assert (Hfix : round zs (resolved zs maxRun) = resolved zs maxRun).
  { rewrite (resolved_enough maxRun Hmax). apply after_length_fixed. }
  apply eligible_false.
  destruct (eligible (resolved zs maxRun) c) eqn:Hel; [|reflexivity].
  pose proof (round_resolves zs _ c Hc Hel) as Hhas.
  rewrite Hfix in Hhas. congruence.
Qed.

Lemma fold_keys_prefix (l : list ZodSchema) (st : State) :
  exists more,
    OMap.keys (statements (fold_left resolveOne l st))
    = (OMap.keys (statements st) ++ more)%list.
Proof.
  revert st. induction l as [|c l IH]; intros st; simpl.
  - exists []. now rewrite app_nil_r.
  - destruct (IH (resolveOne st c)) as (more & Hmore). rewrite Hmore.
    rewrite resolveOne_keys.
    destruct (eligible st c && negb (OMap.has (statements st) (varName c))).
    + exists (varName c :: more). now rewrite <- app_assoc.
    + now exists more.
Qed.

Lemma after_keys_prefix (k : nat) (st : State) :
  exists more,
    OMap.keys (statements (after k zs st))
    = (OMap.keys (statements st) ++ more)%list.
Proof.
  revert st. induction k as [|k IH]; intros st; simpl.
  - exists []. now rewrite app_nil_r.
  - destruct (IH (round zs st)) as (more & Hmore).
    destruct (fold_keys_prefix (pending zs st) st) as (more' & Hmore').
    fold (round zs st) in Hmore'. rewrite Hmore, Hmore'.
    exists (more' ++ more)%list. now rewrite app_assoc.
Qed.

Lemma rounds_mono (m m' : Z) :
  (m <= m')%Z -> rounds zs m <= rounds zs m'.
Proof.
  intros Hle.
  destruct (resolve_spec zs m) as (_ & Hbefore & _).
  destruct (resolve_spec zs m') as (Hst' & _ & Hstop').
  destruct (Nat.le_gt_cases (rounds zs m) (rounds zs m')) as [Hok | Hgt];
    [assumption | exfalso].
  specialize (Hbefore _ Hgt). rewrite Hst' in Hstop'.
  unfold guard in *. apply andb_true_iff in Hbefore.
  destruct Hbefore as [Hsize Hn]. rewrite Hsize in Hstop'. simpl in Hstop'.
  apply Z.ltb_lt in Hn. apply Z.ltb_ge in Hstop'. lia.
Qed.

(** X6.  Raising [maxRun] never removes or moves a resolved statement: the
    insertion order reached with the smaller value is a prefix of the one
    reached with the larger value, every name resolved with the smaller
    value is resolved with the larger one, and at least as many rounds are
    run. *)
Theorem raising_maxRun_extends_the_order (m m' : Z) :
  (m <= m')%Z ->
  rounds zs m <= rounds zs m' /\
  (exists more,
     OMap.keys (statements (resolved zs m'))
     = (OMap.keys (statements (resolved zs m)) ++ more)%list) /\
  (forall k, OMap.has (statements (resolved zs m)) k = true ->
             OMap.has (statements (resolved zs m')) k = true) /\
  (forall t, In t (typeImports (resolved zs m)) ->
             In t (typeImports (resolved zs m'))).
Proof.
  intros Hle. pose proof (rounds_mono m m' Hle) as Hrounds.
  assert (Hlater : resolved zs m'
                   = after (rounds zs m' - rounds zs m) zs (resolved zs m)).
  { rewrite (proj1 (resolve_spec zs m')), (proj1 (resolve_spec zs m)).
    rewrite <- after_add. f_equal. lia. }
  split; [exact Hrounds|]. rewrite Hlater. split; [apply after_keys_prefix|].
  split; [intros k; apply after_has_mono | intros t; apply after_typeImports_mono].
Qed.

End FixedPoint.

Section Blocked.
Context `{Collaborators}.
Variable zs : list ZodSchema.

(** A candidate under a name of its own is not in the map while a name it
    refers to is not. *)
Lemma blocked_not_in_map (st : State) (c : ZodSchema) (d : string) :
  reachable zs st -> In c zs -> uniqueName zs c ->
  In d (dependencies c) -> d <> varName c ->
  OMap.has (statements st) d = false ->
  OMap.has (statements st) (varName c) = false.
Proof.
  intros Hst Hc Hu Hd Hne Hmiss.
  destruct (OMap.has (statements st) (varName c)) eqn:E; [exfalso | reflexivity].
  apply has_entry in E. destruct E as (r & Hr).
  destruct (reachable_provenance zs _ _ r Hst Hr) as (c' & Hc' & Hname & _ & Hdeps).
  rewrite (Hu c' Hc' Hname) in Hdeps.
  rewrite (Hdeps d Hd Hne) in Hmiss. discriminate.
Qed.

(** A candidate whose name is not in the final map is named in the error
    entry. *)
Lemma not_in_map_reported
    (maxRun : Z) (getSchemaName : string -> string) (print : Stmt -> string)
    (c : ZodSchema) :
  In c zs -> OMap.has (statements (resolved zs maxRun)) (varName c) = false ->
  exists e, errors (generateFrom zs maxRun getSchemaName print) = [e] /\
            occurs (varName c) e.
Proof.
  intros Hc Hnot.
  assert (Hin : In c (missingStatements zs (resolved zs maxRun)))
    by now apply missingStatements_In.
  simpl. destruct (missingStatements zs (resolved zs maxRun)) as [|m ms] eqn:E;
    [contradiction|].
  eexists. split; [reflexivity|]. now apply (errorsOf_occurs (m :: ms)).
Qed.

(** X7.  A candidate that refers to a name, other than its own, which is
    not in the final map is not in the final map either, provided no other
    candidate bears its name: it is among the missing statements and its
    name occurs in the error entry. *)
Theorem dependent_of_unresolved_is_unresolved
    (maxRun : Z) (getSchemaName : string -> string) (print : Stmt -> string)
    (c : ZodSchema) (d : string) :
  In c zs -> uniqueName zs c ->
  In d (dependencies c) -> d <> varName c ->
  OMap.has (statements (resolved zs maxRun)) d = false ->
  OMap.has (statements (resolved zs maxRun)) (varName c) = false /\
  In c (missingStatements zs (resolved zs maxRun)) /\
  exists e, errors (generateFrom zs maxRun getSchemaName print) = [e] /\
            occurs (varName c) e.
Proof.
  intros Hc Hu Hd Hne Hmiss.
  assert (Hnot : OMap.has (statements (resolved zs maxRun)) (varName c) = false).
  { apply (blocked_not_in_map _ c d); try assumption. apply resolved_reachable. }
  split; [exact Hnot|]. split; [now apply missingStatements_In|].
  now apply not_in_map_reported.
Qed.

(** X8.  A candidate that refers to a name no candidate bears, for
    instance a declaration the name filter left out, is never resolved,
    whatever [maxRun] is, provided no other candidate bears its own name:
    no callback stores it and it is reported in the error entry. *)
Theorem unknown_dependency_is_reported
    (maxRun : Z) (getSchemaName : string -> string) (print : Stmt -> string)
    (c : ZodSchema) (d : string) :
  In c zs -> uniqueName zs c ->
  In d (dependencies c) -> d <> varName c ->
  (forall c', In c' zs -> varName c' <> d) ->
  OMap.has (statements (resolved zs maxRun)) (varName c) = false /\
  ~ everStored zs maxRun c /\
  exists e, errors (generateFrom zs maxRun getSchemaName print) = [e] /\
            occurs (varName c) e.
Proof.
  intros Hc Hu Hd Hne Hunknown.
  assert (Hnever : forall s, reachable zs s -> OMap.has (statements s) d = false).
  { intros s Hs. destruct (OMap.has (statements s) d) eqn:E; [exfalso | reflexivity].
    destruct (reachable_keys zs s d Hs E) as (c' & Hc' & Hname).
    now apply (Hunknown c'). }
  assert (Hnot : OMap.has (statements (resolved zs maxRun)) (varName c) = false).
  { apply (blocked_not_in_map _ c d); try assumption;
      [|apply Hnever]; apply resolved_reachable. }
  split; [exact Hnot|]. split; [|now apply not_in_map_reported].
  intros (s & Hin & Hel).
  assert (Hs : reachable zs s).
  { apply (callsFrom_reachable zs (rounds zs maxRun) initial s c);
      [constructor | exact Hin]. }
  pose proof (Hnever s Hs) as Hno.
  rewrite (proj1 (eligible_spec s c) Hel d Hd Hne) in Hno. discriminate.
Qed.

Lemma filter_split_length {X} (f : X -> bool) (l : list X) :
  length (filter f l) + length (filter (fun x => negb (f x)) l) = length l.
Proof.
  induction l as [|x l IH]; simpl; [reflexivity|].
  destruct (f x); simpl; lia.
Qed.

(** X9.  When the candidates bear pairwise distinct names, none is lost:
    the entries of the final map and the missing statements together are
    as many as the candidates. *)
Theorem resolved_and_missing_account_for_all (maxRun : Z) :
  NoDup (map varName zs) ->
  OMap.size (statements (resolved zs maxRun))
  + length (missingStatements zs (resolved zs maxRun)) = length zs.
Proof.
  intros Hnd. set (st := resolved zs maxRun).
  assert (Hr : reachable zs st) by apply resolved_reachable.
  set (inMap := fun c : ZodSchema => OMap.has (statements st) (varName c)).
  assert (Hsame : length (filter inMap zs) = OMap.size (statements st)).
  { assert (H1 : length (map varName (filter inMap zs))
                 <= length (OMap.keys (statements st))).
    { apply NoDup_incl_length; [now apply NoDup_names_filter|].
      intros k Hk. apply in_map_iff in Hk. destruct Hk as (c & <- & Hc).
      apply filter_In in Hc. now apply OMapFacts.has_In. }
    assert (H2 : length (OMap.keys (statements st))
                 <= length (map varName (filter inMap zs))).
    { apply NoDup_incl_length; [now apply (reachable_NoDup zs)|].
      intros k Hk. apply OMapFacts.has_In in Hk.
      destruct (reachable_keys zs st k Hr Hk) as (c & Hc & <-).
      apply in_map, filter_In. now split. }
    unfold OMap.keys, OMap.size in *. rewrite !length_map in *. lia. }
  rewrite <- Hsame. unfold missingStatements. fold st.
  apply (filter_split_length inMap zs).
Qed.

(** X10.  When no candidate lists its own name, nothing is rewritten:
    the import set stays empty, [hasCircularDependencies] is false, and
    every entry of the final map carries the statement of a candidate as
    the per-declaration compiler gave it. *)
Theorem no_self_reference_no_rewriting
    (maxRun : Z) (getSchemaName : string -> string) (print : Stmt -> string) :
  (forall c, In c zs -> ~ In (varName c) (dependencies c)) ->
  typeImports (resolved zs maxRun) = [] /\
  hasCircularDependencies (generateFrom zs maxRun getSchemaName print) = false /\
  forall k r, In (k, r) (statements (resolved zs maxRun)) ->
    exists c, In c zs /\ varName c = k /\
              resolvedTypeName r = typeName c /\ value r = statement c.
Proof.
  intros Hnone.
  assert (Hplain : forall c, In c zs -> isCircular c = false).
  { intros c Hc. destruct (isCircular c) eqn:E; [|reflexivity].
    apply includes_In in E. now apply Hnone in E. }
  assert (Hempty : typeImports (resolved zs maxRun) = []).
  { destruct (typeImports (resolved zs maxRun)) as [|t ts] eqn:E; [reflexivity|].
    assert (Ht : In t (typeImports (resolved zs maxRun))) by (rewrite E; now left).
    apply resolved_typeImports in Ht. destruct Ht as (c & (s & Hin & _ & Hcirc) & _).
    apply callsFrom_In in Hin. rewrite (Hplain c Hin) in Hcirc. discriminate. }
  split; [exact Hempty|]. split; [simpl; now rewrite Hempty|].
  intros k r Hin.
  destruct (reachable_provenance zs _ k r (resolved_reachable zs maxRun) Hin)
    as (c & Hc & Hname & Hentry & _).
  exists c. subst r. unfold entryOf. rewrite (Hplain c Hc). now repeat split.
Qed.

End Blocked.

Section DependencyOrdered.
Context `{Collaborators}.

Lemma fold_in_order (l pre : list ZodSchema) (st : State) :
  NoDup (map varName (pre ++ l)) ->
  OMap.keys (statements st) = map varName pre ->
  (forall pre' c post d,
     l = (pre' ++ c :: post)%list -> In d (dependencies c) -> d <> varName c ->
     In d (map varName (pre ++ pre'))) ->
  OMap.keys (statements (fold_left resolveOne l st)) = map varName (pre ++ l).
Proof.
  revert pre st. induction l as [|c l IH]; intros pre st Hnd Hkeys Hord; simpl.
  - now rewrite app_nil_r.
  - assert (Hel : eligible st c = true).
    { apply eligible_spec. intros d Hd Hne. apply OMapFacts.has_In.
      rewrite Hkeys. specialize (Hord [] c l d eq_refl Hd Hne).
      now rewrite app_nil_r in Hord. }
    assert (Hnew : OMap.has (statements st) (varName c) = false).
    { apply OMapFacts.has_false_In. rewrite Hkeys. intros Hin.
      rewrite map_app in Hnd. simpl in Hnd. apply NoDup_remove_2 in Hnd.
      apply Hnd. apply in_or_app. now left. }
    replace (pre ++ c :: l)%list with ((pre ++ [c]) ++ l)%list
      by (rewrite <- app_assoc; reflexivity).
    apply IH.
    + now rewrite <- app_assoc.
    + rewrite resolveOne_keys, Hel, Hnew, Hkeys. simpl.
      now rewrite map_app.
    + intros pre' x post d Heq Hd Hne. rewrite <- app_assoc. simpl.
      apply (Hord (c :: pre') x post d); [now rewrite Heq | assumption | assumption].
Qed.

(** X11.  Candidates with pairwise distinct names that are extracted in
    dependency order, each after the candidates it refers to, are all
    resolved by the first round, for every [maxRun] of 1 or more: the loop
    runs that one round, the insertion order of the map is the extraction
    order, and nothing is reported. *)
Theorem dependency_ordered_input_keeps_its_order
    (zs : list ZodSchema) (maxRun : Z)
    (getSchemaName : string -> string) (print : Stmt -> string) :
  zs <> [] -> (1 <= maxRun)%Z ->
  NoDup (map varName zs) -> inDependencyOrder zs ->
  rounds zs maxRun = 1 /\
  OMap.keys (statements (resolved zs maxRun)) = map varName zs /\
  errors (generateFrom zs maxRun getSchemaName print) = [].
Proof.
  intros Hne Hmax Hnd Hord.
  assert (Hround : OMap.keys (statements (round zs initial)) = map varName zs).
  { unfold round. rewrite pending_initial.
    apply (fold_in_order zs [] initial); [assumption | reflexivity |].
    intros pre c post d Heq Hd Hdne. simpl. now apply (Hord pre c post d). }
  assert (Hfull : OMap.size (statements (round zs initial)) = length zs).
  { unfold OMap.keys, OMap.size in *.
    rewrite <- (length_map fst), Hround. apply length_map. }
  assert (Hres : resolve zs maxRun = (1, round zs initial)).
  { unfold resolve. destruct (Z.to_nat maxRun) as [|fuel] eqn:E; [lia|].
    simpl. unfold guard at 1. simpl.
    destruct zs as [|c l]; [congruence|]. simpl.
    replace (0 <? maxRun)%Z with true by (symmetry; apply Z.ltb_lt; lia).
    destruct fuel as [|fuel]; [reflexivity|]. simpl.
    unfold guard. rewrite Hfull. simpl. now rewrite Nat.eqb_refl. }
  unfold rounds, resolved, generateFrom. simpl.
  unfold resolved. rewrite Hres. simpl.
  split; [reflexivity|]. split; [exact Hround|].
  assert (Hmiss : missingStatements zs (round zs initial) = []).
  { destruct (missingStatements zs (round zs initial)) as [|m ms] eqn:E;
      [reflexivity|].
    assert (Hin : In m (missingStatements zs (round zs initial)))
      by (rewrite E; now left).
    apply missingStatements_In in Hin. destruct Hin as [Hin Hm].
    apply OMapFacts.has_false_In in Hm. exfalso. apply Hm.
    rewrite Hround. now apply in_map. }
  now rewrite Hmiss.
Qed.

End DependencyOrdered.

(** * The extraction of the candidates *)

Section Extraction.
Context `{Collaborators}.

(** X14.  When the source file has no interface or type alias the filter
    accepts, there is no candidate: whatever [maxRun] is, [errors] is empty,
    [hasCircularDependencies] is false and the schemas text is the bare
    header. *)
Theorem nothing_extracted_nothing_generated (p : GenerateProps) :
  (forall node, In node (children (sourceFileOf p)) ->
     isDeclaration node = true -> nameFilterOf p (nameText node) = false) ->
  zodSchemasOf p = [] /\
  errors (generate p) = [] /\
  hasCircularDependencies (generate p) = false /\
  forall typesImportPath,
    getZodSchemasFile (generate p) typesImportPath =
    "// Generated by ts-to-zod" ++ nl ++
    "import { z } from " ++ dquote ++ "zod" ++ dquote ++ ";" ++ nl ++
    nl ++ nl.
Proof.
  intros Hnone.
  assert (Hnodes : nodesOf p = []).
  { unfold nodesOf. destruct (filter _ (children (sourceFileOf p))) as [|n l] eqn:E;
      [reflexivity|].
    assert (Hin : In n (n :: l)) by now left.
    rewrite <- E in Hin. apply filter_In in Hin. destruct Hin as [Hin Hkeep].
    apply andb_true_iff in Hkeep. destruct Hkeep as [Hdecl Hfilter].
    rewrite (Hnone n Hin Hdecl) in Hfilter. discriminate. }
  assert (Hzs : zodSchemasOf p = [])
    by (unfold zodSchemasOf; now rewrite Hnodes).
  assert (Hres : forall m, resolve (@nil ZodSchema) m = (0, initial)).
  { intros m. unfold resolve. now destruct (Z.to_nat m). }
  split; [exact Hzs|].
  unfold generate, generateFrom, resolved. rewrite Hzs, Hres. simpl.
  repeat split.
Qed.

End Extraction.

(** * The path helper *)

Lemma split_nonempty (sep : ascii) (s : string) : split sep s <> [].
Proof.
  destruct s as [|ch s]; simpl; [discriminate|].
  destruct (Ascii.eqb ch sep); [discriminate|].
  destruct (split sep s); discriminate.
Qed.

Lemma join_String (sep : string) (ch : ascii) (head : string) (tail : list string) :
  join sep (String ch head :: tail) = String ch (join sep (head :: tail)).
Proof. destruct tail; reflexivity. Qed.

Lemma chars_substitute (from to : ascii) (s : string) :
  chars (substitute from to s)
  = map (fun ch => if Ascii.eqb ch from then to else ch) (chars s).
Proof. induction s as [|ch s IH]; simpl; [reflexivity | now rewrite IH]. Qed.

Lemma makePosixPath_substitute (sep : ascii) (str : string) :
  makePosixPath sep str = substitute sep "/"%char str.
Proof.
  unfold makePosixPath. induction str as [|ch s IH]; simpl; [reflexivity|].
  destruct (Ascii.eqb ch sep).
  - destruct (split sep s) as [|head tail] eqn:E;
      [now apply split_nonempty in E|].
    change (join posixSep (EmptyString :: head :: tail))
      with (String "/"%char (join posixSep (head :: tail))).
    now rewrite IH.
  - destruct (split sep s) as [|head tail] eqn:E;
      [now apply split_nonempty in E|].
    now rewrite join_String, IH.
Qed.

(** X15.  [makePosixPath] replaces every separator of the platform by a
    slash and leaves every other character where it is; the path keeps its
    length. *)
Theorem makePosixPath_replaces_separators (sep : ascii) (str : string) :
  chars (makePosixPath sep str)
  = map (fun ch => if Ascii.eqb ch sep then "/"%char else ch) (chars str) /\
  String.length (makePosixPath sep str) = String.length str.
Proof.
  rewrite makePosixPath_substitute. split; [apply chars_substitute|].
  induction str as [|ch s IH]; simpl; [reflexivity | now rewrite IH].
Qed.

(** X16.  Where the separator of the platform is the slash,
    [makePosixPath] returns its argument; on every platform a path without
    separator is returned as it is, the result of a separator other than
    the slash holds no separator, and applying [makePosixPath] twice is
    applying it once. *)
Theorem makePosixPath_posix_form (sep : ascii) (str : string) :
  makePosixPath "/"%char str = str /\
  (~ In sep (chars str) -> makePosixPath sep str = str) /\
  (sep <> "/"%char -> ~ In sep (chars (makePosixPath sep str))) /\
  makePosixPath sep (makePosixPath sep str) = makePosixPath sep str.
Proof.
  assert (Hkeep : forall a s, (~ In a (chars s) \/ a = "/"%char) ->
            substitute a "/"%char s = s).
  { intros a s. induction s as [|ch s IH]; intros Hs; simpl; [reflexivity|].
    rewrite IH.
    - destruct (Ascii.eqb ch a) eqn:E; [|reflexivity].
      apply Ascii.eqb_eq in E. subst ch.
      destruct Hs as [Hs | ->]; [exfalso; apply Hs; now left | reflexivity].
    - destruct Hs as [Hs | ->]; [left; intros Hin; apply Hs; now right | now right]. }
  assert (Hgone : sep <> "/"%char ->
            ~ In sep (chars (substitute sep "/"%char str))).
  { intros Hne. induction str as [|ch s IH]; simpl; [intros []|].
    intros [E | Hin]; [|now apply IH].
    destruct (Ascii.eqb ch sep) eqn:E'; [congruence|].
    apply Ascii.eqb_neq in E'. congruence. }
  rewrite !makePosixPath_substitute.
  split; [apply Hkeep; now right|].
  split; [intros Hno; apply Hkeep; now left|].
  split; [exact Hgone|].
  destruct (Ascii.eqb sep "/"%char) eqn:E.
  - apply Ascii.eqb_eq in E. subst sep. rewrite !Hkeep; auto.
  - apply Ascii.eqb_neq in E. apply Hkeep. left. now apply Hgone.
Qed.

(** * The emitted order *)

Section EmittedOrder.
Context `{Collaborators}.

(** X17.  When the candidates bear pairwise distinct names, the insertion
    order of the final map is topological whatever is left unresolved and
    whatever [maxRun] is: every name a resolved candidate refers to, its own
    apart, stands at an earlier position.  And when nothing is reported,
    every dependency names a candidate. *)
Theorem emitted_order_is_topological
    (zs : list ZodSchema) (maxRun : Z)
    (getSchemaName : string -> string) (print : Stmt -> string) :
  NoDup (map varName zs) ->
  topological zs (resolved zs maxRun) /\
  (errors (generateFrom zs maxRun getSchemaName print) = [] -> closed zs).
Proof.
  intros Hnd.
  assert (Htopo : topological zs (resolved zs maxRun)).
  { rewrite (proj1 (resolve_spec zs maxRun)).
    apply after_topological; [assumption | apply initial_topological]. }
  split; [exact Htopo|]. simpl. intros Herr c d Hc Hd Hne.
  assert (Hhas : OMap.has (statements (resolved zs maxRun)) (varName c) = true).
  { destruct (OMap.has (statements (resolved zs maxRun)) (varName c)) eqn:E;
      [reflexivity | exfalso].
    assert (Hin : In c (missingStatements zs (resolved zs maxRun)))
      by now apply missingStatements_In.
    destruct (missingStatements zs (resolved zs maxRun)); [contradiction|].
    discriminate Herr. }
  apply OMapFacts.has_In, In_nth_error in Hhas. destruct Hhas as (i & Hi).
  destruct (Htopo i c d Hc Hi Hd Hne) as (j & _ & Hj).
  apply nth_error_In, OMapFacts.has_In in Hj.
  exact (reachable_keys zs _ d (resolved_reachable zs maxRun) Hj).
Qed.

End EmittedOrder.

(** * Further concrete runs *)

Module Samples.
Import Fixture MoreFixture.
#[local] Existing Instance collaborators.

Lemma resolved_entry_provenance_witness :
  In ("nodeSchema",
      {| resolvedTypeName := "Node";
         value := transformRecursiveSchema "z" (statement Tree) "Node" |})
     (statements (resolved [Tree] 10)) /\
  exists c, In c [Tree] /\ varName c = "nodeSchema" /\ isCircular c = true.
Proof.
  assert (Hin : In ("nodeSchema",
                    {| resolvedTypeName := "Node";
                       value := transformRecursiveSchema "z" (statement Tree) "Node" |})
                   (statements (resolved [Tree] 10)))
    by (vm_compute; left; reflexivity).
  split; [exact Hin|].
  destruct (resolved_entry_provenance [Tree] 10 _ _ Hin) as (c & Hc & Hname & _).
  exists c. split; [exact Hc|]. split; [exact Hname|].
  destruct Hc as [<- | []]. reflexivity.
Defined.

Lemma maxRun_suffices_witness :
  (Z.of_nat (length [C; B; A]) <= 10)%Z /\
  resolved [C; B; A] 10 = resolved [C; B; A] (Z.of_nat (length [C; B; A])).
Proof.
  assert (Hmax : (Z.of_nat (length [C; B; A]) <= 10)%Z) by (simpl; lia).
  exact (conj Hmax (proj1 (maxRun_number_of_candidates_suffices [C; B; A] 10 Hmax))).
Defined.

Lemma reported_candidate_witness :
  In P (missingStatements [P; Q] (resolved [P; Q] 10)) /\
  exists d, In d (dependencies P) /\ d <> varName P /\
            OMap.has (statements (resolved [P; Q] 10)) d = false.
Proof.
  assert (Hmax : (Z.of_nat (length [P; Q]) <= 10)%Z) by (simpl; lia).
  assert (Hin : In P (missingStatements [P; Q] (resolved [P; Q] 10)))
    by (vm_compute; left; reflexivity).
  exact (conj Hin (reported_candidate_is_blocked [P; Q] 10 P Hmax Hin)).
Defined.

Lemma raising_maxRun_witness :
  (1 <= 2)%Z /\
  rounds [C; B; A] 1 <= rounds [C; B; A] 2 /\
  exists more,
    OMap.keys (statements (resolved [C; B; A] 2))
    = (OMap.keys (statements (resolved [C; B; A] 1)) ++ more)%list.
Proof.
  assert (Hle : (1 <= 2)%Z) by lia.
  destruct (raising_maxRun_extends_the_order [C; B; A] 1 2 Hle) as (W1 & W2 & _).
  exact (conj Hle (conj W1 W2)).
Defined.

Lemma dependent_of_unresolved_witness :
  uniqueName [P; Q] P /\
  OMap.has (statements (resolved [P; Q] 10)) "qSchema" = false /\
  OMap.has (statements (resolved [P; Q] 10)) (varName P) = false.
Proof.
  assert (Hu : uniqueName [P; Q] P).
  { intros c [<- | [<- | []]] E; [reflexivity | discriminate E]. }
  assert (Hmiss : OMap.has (statements (resolved [P; Q] 10)) "qSchema" = false)
    by (vm_compute; reflexivity).
  pose proof (dependent_of_unresolved_is_unresolved [P; Q] 10
                (fun id => id) (fun node => node) P "qSchema"
                ltac:(left; reflexivity) Hu ltac:(left; reflexivity)
                ltac:(discriminate) Hmiss) as (W & _).
  exact (conj Hu (conj Hmiss W)).
Defined.

Lemma unknown_dependency_witness :
  uniqueName [Dangling] Dangling /\
  (forall c', In c' [Dangling] -> varName c' <> "eSchema") /\
  OMap.has (statements (resolved [Dangling] 10)) (varName Dangling) = false.
Proof.
  assert (Hu : uniqueName [Dangling] Dangling).
  { intros c [<- | []] _. reflexivity. }
  assert (Hunknown : forall c', In c' [Dangling] -> varName c' <> "eSchema").
  { intros c' [<- | []]. discriminate. }
  pose proof (unknown_dependency_is_reported [Dangling] 10
                (fun id => id) (fun node => node) Dangling "eSchema"
                ltac:(left; reflexivity) Hu ltac:(left; reflexivity)
                ltac:(discriminate) Hunknown) as (W & _).
  exact (conj Hu (conj Hunknown W)).
Defined.

Lemma names_distinct_CBA : NoDup (map varName [C; B; A]).
Proof.
  simpl. repeat constructor; simpl; intros Hin;
    repeat (destruct Hin as [Hin | Hin]); try contradiction; discriminate Hin.
Defined.

Lemma account_for_all_witness :
  NoDup (map varName [C; B; A]) /\
  OMap.size (statements (resolved [C; B; A] 1))
  + length (missingStatements [C; B; A] (resolved [C; B; A] 1)) = 3.
Proof.
  exact (conj names_distinct_CBA
           (resolved_and_missing_account_for_all [C; B; A] 1 names_distinct_CBA)).
Defined.

Lemma no_self_reference_witness :
  (forall c, In c [A; B; C] -> ~ In (varName c) (dependencies c)) /\
  typeImports (resolved [A; B; C] 10) = [] /\
  hasCircularDependencies (run [A; B; C] 10) = false.
Proof.
  assert (Hnone : forall c, In c [A; B; C] -> ~ In (varName c) (dependencies c)).
  { intros c [<- | [<- | [<- | []]]] Hin; simpl in Hin;
      repeat (destruct Hin as [Hin | Hin]); try contradiction; discriminate Hin. }
  destruct (no_self_reference_no_rewriting [A; B; C] 10
              (fun id => id ++ "Schema") (fun node => node) Hnone) as (W1 & W2 & _).
  exact (conj Hnone (conj W1 W2)).
Defined.

Lemma dependency_ordered_witness :
  inDependencyOrder [A; B; C] /\
  rounds [A; B; C] 10 = 1 /\
  OMap.keys (statements (resolved [A; B; C] 10)) = map varName [A; B; C].
Proof.
  assert (Hnd : NoDup (map varName [A; B; C])).
  { simpl. repeat constructor; simpl; intros Hin;
      repeat (destruct Hin as [Hin | Hin]); try contradiction; discriminate Hin. }
  assert (Hord : inDependencyOrder [A; B; C]).
  { intros pre c post d Heq Hd Hne.
    destruct pre as [|x [|y [|z pre]]]; inversion Heq; subst; simpl in Hd;
      try contradiction.
    - destruct Hd as [<- | []]. simpl. now left.
    - destruct Hd as [<- | []]. simpl. right. now left.
    - destruct pre; discriminate. }
  destruct (dependency_ordered_input_keeps_its_order [A; B; C] 10
              (fun id => id) (fun node => node)
              ltac:(discriminate) ltac:(lia) Hnd Hord) as (W1 & W2 & _).
  exact (conj Hord (conj W1 W2)).
Defined.

Lemma nothing_extracted_witness :
  zodSchemasOf propsNothing = [] /\ errors (generate propsNothing) = [].
Proof.
  assert (Hnone : forall node, In node (children (sourceFileOf propsNothing)) ->
            isDeclaration node = true ->
            nameFilterOf propsNothing (nameText node) = false).
  { intros node _ _. reflexivity. }
  destruct (nothing_extracted_nothing_generated propsNothing Hnone) as (W1 & W2 & _).
  exact (conj W1 W2).
Defined.

Lemma emitted_order_witness :
  NoDup (map varName [C; B; A]) /\ topological [C; B; A] (resolved [C; B; A] 2).
Proof.
  exact (conj names_distinct_CBA
           (proj1 (emitted_order_is_topological [C; B; A] 2
                     (fun id => id) (fun node => node) names_distinct_CBA))).
Defined.

(** With [maxRun] two and a half, a pair that never resolves is walked
    three times. *)
Lemma rounds_at_two_and_a_half :
  fst (resolveNumber [P; Q] twoAndAHalf) = 3 /\
  Qround.Qceiling twoAndAHalf = 3%Z.
Proof. vm_compute. split; reflexivity. Qed.

Lemma dependencies_as_sets_witness :
  Forall2 sameDependencies [C; B; A] [C; Btwice; A] /\
  resolve [C; B; A] 10 = resolve [C; Btwice; A] 10.
Proof.
  assert (Hsame : Forall2 sameDependencies [C; B; A] [C; Btwice; A]).
  { apply Forall2_cons; [|apply Forall2_cons; [|apply Forall2_cons; [|apply Forall2_nil]]];
      unfold sameDependencies; simpl; intuition auto. }
  exact (conj Hsame
           (proj1 (generateFrom_dependencies_as_sets [C; B; A] [C; Btwice; A] 10
                     (fun id => id) (fun node => node) Hsame))).
Defined.

End Samples.
